(** * Identity reconciliation engine of Bit-Merge (contact.service.ts)

    Shallow embedding of [identifyContact], [findRootPrimary], [withRetry]
    and [buildResponse].  The relational store is an explicit state: the
    list of Contact rows in insertion (id) order, the next SERIAL id, the
    current timestamp and a log of the writes performed.  A transaction body
    is a state/error computation; a failed body commits nothing. *)

From Stdlib Require Import String Ascii List Bool Arith Lia ZArith NArith.
From Stdlib Require Import Sorting.Sorted Sorting.Permutation.
Import ListNotations.

(** ** Data model (prisma schema) *)

Inductive LinkPrecedence := primary | secondary.

Record Contact := mkContact {
  id : nat;
  email : option string;
  phoneNumber : option string;
  linkPrecedence : LinkPrecedence;
  linkedId : option nat;
  createdAt : Z;
  deletedAt : option Z
}.

(** Writes issued to the store: [create], [updateMany] on [linkedId],
    [update] of one row by id. *)
Inductive Write :=
| WCreate (newId : nat)
| WUpdateMany (whereLinkedId newLinkedId : nat)
| WUpdate (whereId newLinkedId : nat).

Record DB := mkDB {
  contacts : list Contact;
  next_id : nat;     (** next value of the SERIAL sequence *)
  clock : Z;         (** CURRENT_TIMESTAMP used for [createdAt] *)
  log : list Write
}.

(** Failures: the two [Error]s thrown by [findRootPrimary], store errors
    carrying Prisma's [code] and the driver's [meta.code], the TypeError of
    reading a field of [undefined], and ['Max retries reached']. *)
Inductive Error :=
| CircularLink (contactId : nat)
| ContactNotFound (contactId : nat)
| StoreError (code : option string) (meta_code : option string)
| TypeErrorUndefined
| MaxRetriesReached.

Record IdentifyResponse := mkResponse {
  primaryContatctId : nat;
  emails : list string;
  phoneNumbers : list string;
  secondaryContactIds : list nat
}.

(** ** A state/error monad for transaction bodies *)

Definition M (A : Type) : Type := DB -> Error + (A * DB).

Definition ret {A} (a : A) : M A := fun db => inr (a, db).
Definition bind {A B} (m : M A) (k : A -> M B) : M B :=
  fun db => match m db with
            | inl e => inl e
            | inr (a, db') => k a db'
            end.
Definition throw {A} (e : Error) : M A := fun _ => inl e.

Notation "x <- m ;; k" := (bind m (fun x => k))
  (at level 61, m at next level, right associativity).

(** ** JavaScript truthiness and helpers *)

(** [x ? ... : ...] on a [string | null]: the empty string is falsy. *)
Definition truthy (s : option string) : bool :=
  match s with Some x => negb (String.eqb x EmptyString) | None => false end.

(** [.filter(Boolean)] on a list of [string | null]. *)
Fixpoint truthyVals (l : list (option string)) : list string :=
  match l with
  | [] => []
  | Some x :: l' => if String.eqb x EmptyString then truthyVals l' else x :: truthyVals l'
  | None :: l' => truthyVals l'
  end.

Definition memStr (x : string) (l : list string) : bool := existsb (String.eqb x) l.

(** [[...new Set(l)]]: insertion order, first occurrence kept. *)
Fixpoint setFrom (seen : list string) (l : list string) : list string :=
  match l with
  | [] => []
  | x :: l' => if memStr x seen then setFrom seen l' else x :: setFrom (x :: seen) l'
  end.
Definition uniqStr (l : list string) : list string := setFrom [] l.

Definition optStrEqb (o : option string) (s : string) : bool :=
  match o with Some x => String.eqb x s | None => false end.
Definition optNatEqb (o : option nat) (n : nat) : bool :=
  match o with Some x => Nat.eqb x n | None => false end.

Definition isLive (c : Contact) : bool :=
  match deletedAt c with None => true | Some _ => false end.

Definition isSecondary (c : Contact) : bool :=
  match linkPrecedence c with secondary => true | primary => false end.

(** ** Store operations *)

(** [findMany({ where: { email, deletedAt: null } })] *)
Definition findManyByEmail (e : string) : M (list Contact) :=
  fun db => inr (filter (fun c => optStrEqb (email c) e && isLive c) (contacts db), db).

(** [findMany({ where: { phoneNumber, deletedAt: null } })] *)
Definition findManyByPhone (p : string) : M (list Contact) :=
  fun db => inr (filter (fun c => optStrEqb (phoneNumber c) p && isLive c) (contacts db), db).

(** [findUnique({ where: { id } })]: no [deletedAt] filter. *)
Definition findUniqueIn (cs : list Contact) (i : nat) : option Contact :=
  find (fun c => Nat.eqb (id c) i) cs.

(** Stable sort on [createdAt] ascending ([Array.prototype.sort] with
    [(a, b) => a.createdAt - b.createdAt], and [orderBy: { createdAt: 'asc' }]
    over rows returned in insertion order). *)
Fixpoint insertByCreatedAt (x : Contact) (l : list Contact) : list Contact :=
  match l with
  | [] => [x]
  | y :: l' => if Z.leb (createdAt x) (createdAt y) then x :: l
               else y :: insertByCreatedAt x l'
  end.
Fixpoint sortByCreatedAt (l : list Contact) : list Contact :=
  match l with
  | [] => []
  | x :: l' => insertByCreatedAt x (sortByCreatedAt l')
  end.

(** [findMany({ where: { linkedId: p, deletedAt: null }, orderBy: { createdAt: 'asc' } })].
    Rows with equal [createdAt] come here in store order; PostgreSQL leaves
    their order unspecified, so this is one of the orders it may return. *)
Definition linksTo (p : nat) (c : Contact) : bool := optNatEqb (linkedId c) p && isLive c.
Definition findManyLinked (p : nat) : M (list Contact) :=
  fun db => inr (sortByCreatedAt (filter (linksTo p) (contacts db)), db).

(** [create({ data: { email, phoneNumber, linkedId?, linkPrecedence } })] *)
Definition create (e p : option string) (prec : LinkPrecedence) (linked : option nat)
  : M Contact :=
  fun db =>
    let c := mkContact (next_id db) e p prec linked (clock db) None in
    inr (c, mkDB (contacts db ++ [c]) (S (next_id db)) (clock db)
                 (log db ++ [WCreate (next_id db)])).

(** [updateMany({ where: { linkedId: t, deletedAt: null }, data: { linkedId: o } })] *)
Definition relinked (c : Contact) (o : nat) : Contact :=
  mkContact (id c) (email c) (phoneNumber c) (linkPrecedence c) (Some o)
            (createdAt c) (deletedAt c).
Definition relink (t o : nat) (c : Contact) : Contact :=
  if linksTo t c then relinked c o else c.
Definition updateManyLinked (t o : nat) : M unit :=
  fun db => inr (tt, mkDB (map (relink t o) (contacts db)) (next_id db) (clock db)
                          (log db ++ [WUpdateMany t o])).

(** [update({ where: { id: t }, data: { linkedId: o, linkPrecedence: 'secondary' } })];
    Prisma raises P2025 when no row has that id. *)
Definition demoted (c : Contact) (o : nat) : Contact :=
  mkContact (id c) (email c) (phoneNumber c) secondary (Some o)
            (createdAt c) (deletedAt c).
Definition demote (t o : nat) (c : Contact) : Contact :=
  if Nat.eqb (id c) t then demoted c o else c.
Definition updateDemote (t o : nat) : M unit :=
  fun db =>
    if existsb (fun c => Nat.eqb (id c) t) (contacts db)
    then inr (tt, mkDB (map (demote t o) (contacts db)) (next_id db) (clock db)
                       (log db ++ [WUpdate t o]))
    else inl (StoreError (Some "P2025"%string) None).

(** ** findRootPrimary *)

(** The [while] loop of [findRootPrimary]: [remaining] is [maxDepth - depth],
    so the guard [++depth > maxDepth] fires exactly when [remaining] is 0. *)
Fixpoint followLinks (cs : list Contact) (contactId : nat) (remaining : nat)
  (contact : option Contact) : Error + Contact :=
  match contact with
  | None => inl (ContactNotFound contactId)
  | Some c =>
      match linkPrecedence c, linkedId c with
      | secondary, Some l =>
          if Nat.eqb l 0 then inr c              (* [contact.linkedId] falsy *)
          else match remaining with
               | 0 => inl (CircularLink contactId)
               | S r => followLinks cs contactId r (findUniqueIn cs l)
               end
      | _, _ => inr c
      end
  end.

Definition findRootPrimaryIn (cs : list Contact) (contactId maxDepth : nat) : Error + Contact :=
  followLinks cs contactId maxDepth (findUniqueIn cs contactId).

Definition findRootPrimary (contactId : nat) (maxDepth : nat) : M Contact :=
  fun db => match findRootPrimaryIn (contacts db) contactId maxDepth with
            | inl e => inl e
            | inr c => inr (c, db)
            end.

(** ** withRetry *)

Definition isRetryable (err : Error) : bool :=
  match err with
  | StoreError c m => optStrEqb c "P2034" || optStrEqb m "40001"
  | _ => false
  end.

(** [for (let i = 0; i < retries; i++)] with [k = retries - i] iterations
    left; [fn i] is the outcome of the [i]-th execution of the body.  The
    second component counts the executions of [fn]. *)
Fixpoint retryLoop {A} (fn : nat -> Error + A) (retries i k : nat) : (Error + A) * nat :=
  match k with
  | 0 => (inl MaxRetriesReached, 0)
  | S k' =>
      match fn i with
      | inr a => (inr a, 1)
      | inl err =>
          if isRetryable err && Nat.ltb i (retries - 1)
          then let '(r, n) := retryLoop fn retries (S i) k' in (r, S n)
          else (inl err, 1)
      end
  end.

Definition withRetry {A} (fn : nat -> Error + A) (retries : nat) : (Error + A) * nat :=
  retryLoop fn retries 0 retries.

(** ** buildResponse *)

Definition buildResponse (primaryContact : Contact) : M IdentifyResponse :=
  secondaries <- findManyLinked (id primaryContact) ;;
  let allContacts := primaryContact :: secondaries in
  ret (mkResponse (id primaryContact)
                  (uniqStr (truthyVals (map email allContacts)))
                  (uniqStr (truthyVals (map phoneNumber allContacts)))
                  (map id secondaries)).

(** ** identifyContact *)

(** [x ? await q(x) : []] *)
Definition whenTruthy (x : option string) (q : string -> M (list Contact)) : M (list Contact) :=
  match x with
  | Some s => if String.eqb s EmptyString then ret [] else q s
  | None => ret []
  end.

(** [allMatches.filter((c, i, self) => self.findIndex(d => d.id === c.id) === i)]:
    keep the first row of each id. *)
Fixpoint dedupById (seen : list nat) (l : list Contact) : list Contact :=
  match l with
  | [] => []
  | c :: l' => if existsb (Nat.eqb (id c)) seen then dedupById seen l'
               else c :: dedupById (id c :: seen) l'
  end.

Definition lookupMatches (email phoneNumber : option string) : M (list Contact) :=
  emailContacts <- whenTruthy email findManyByEmail ;;
  phoneContacts <- whenTruthy phoneNumber findManyByPhone ;;
  ret (dedupById [] (emailContacts ++ phoneContacts)).

(** Argument of [findRootPrimary] for a match:
    [match.linkPrecedence === 'secondary' && match.linkedId ? match.linkedId : match.id]. *)
Definition rootStart (m : Contact) : nat :=
  match linkPrecedence m, linkedId m with
  | secondary, Some l => if Nat.eqb l 0 then id m else l
  | _, _ => id m
  end.

(** [Map.prototype.set]: an existing key keeps its position. *)
Fixpoint mapSet (k : nat) (v : Contact) (m : list (nat * Contact)) : list (nat * Contact) :=
  match m with
  | [] => [(k, v)]
  | (k', v') :: m' => if Nat.eqb k k' then (k, v) :: m' else (k', v') :: mapSet k v m'
  end.

Fixpoint resolveRoots (ms : list Contact) (primaryMap : list (nat * Contact))
  : M (list (nat * Contact)) :=
  match ms with
  | [] => ret primaryMap
  | m :: ms' => root <- findRootPrimary (rootStart m) 10 ;;
                resolveRoots ms' (mapSet (id root) root primaryMap)
  end.

(** Loop [for (let i = 1; i < primaries.length; i++)] over the newer primaries. *)
Fixpoint mergeNewer (oldest : Contact) (newer : list Contact) : M unit :=
  match newer with
  | [] => ret tt
  | n :: newer' => _ <- updateManyLinked (id n) (id oldest) ;;
                   _ <- updateDemote (id n) (id oldest) ;;
                   mergeNewer oldest newer'
  end.

(** Lines 117-153: resolve roots, sort them, demote the newer primaries.
    With an empty [primaries], [primaries[0]] is [undefined] and the first
    use of [oldestPrimary.id] throws; the transaction then commits nothing. *)
Definition resolveAndMerge (uniqueMatches : list Contact) : M Contact :=
  primaryMap <- resolveRoots uniqueMatches [] ;;
  let primaries := sortByCreatedAt (map snd primaryMap) in
  match primaries with
  | [] => throw TypeErrorUndefined
  | oldestPrimary :: newer =>
      _ <- (if Nat.ltb 1 (length primaries) then mergeNewer oldestPrimary newer else ret tt) ;;
      ret oldestPrimary
  end.

(** [x && !existing.has(x)] *)
Definition hasNew (x : option string) (existing : list string) : bool :=
  match x with
  | Some s => negb (String.eqb s EmptyString) && negb (memStr s existing)
  | None => false
  end.

(** Lines 155-172 ([inEmail], [inPhone] are the arguments [email],
    [phoneNumber] of [identifyContact]). *)
Definition addIfNew (inEmail inPhone : option string) (uniqueMatches : list Contact)
  (oldestPrimary : Contact) : M unit :=
  let existingEmails := truthyVals (map email uniqueMatches) in
  let existingPhones := truthyVals (map phoneNumber uniqueMatches) in
  if hasNew inEmail existingEmails || hasNew inPhone existingPhones
  then _ <- create inEmail inPhone secondary (Some (id oldestPrimary)) ;; ret tt
  else ret tt.

Definition identifyBody (email phoneNumber : option string) : M IdentifyResponse :=
  uniqueMatches <- lookupMatches email phoneNumber ;;
  match uniqueMatches with
  | [] => newContact <- create email phoneNumber primary None ;;
          buildResponse newContact
  | _ :: _ => oldestPrimary <- resolveAndMerge uniqueMatches ;;
              _ <- addIfNew email phoneNumber uniqueMatches oldestPrimary ;;
              buildResponse oldestPrimary
  end.

(** [identifyContact]: [withRetry] around a serializable transaction.  The
    [i]-th execution runs on the snapshot [snapshot i]; [storeAbort i] is the
    failure the store raises for it, if any (e.g. a serialization conflict).
    A failed execution commits nothing. *)
Definition attempt (snapshot : nat -> DB) (storeAbort : nat -> option Error)
  (email phoneNumber : option string) (i : nat) : Error + (IdentifyResponse * DB) :=
  match storeAbort i with
  | Some err => inl err
  | None => identifyBody email phoneNumber (snapshot i)
  end.

Definition identifyContact (snapshot : nat -> DB) (storeAbort : nat -> option Error)
  (email phoneNumber : option string) : (Error + (IdentifyResponse * DB)) * nat :=
  withRetry (attempt snapshot storeAbort email phoneNumber) 3.

(** ** Store invariants (spec section 3) *)

(** Guarantees of [id SERIAL PRIMARY KEY]: unique positive ids, all below
    the next value of the sequence. *)
Record storeIds (db : DB) : Prop := {
  ids_nodup : NoDup (map id (contacts db));
  ids_pos : forall c, In c (contacts db) -> 0 < id c;
  ids_fresh : forall c, In c (contacts db) -> id c < next_id db;
  next_pos : 0 < next_id db
}.

(** Linking invariants as the claims state them, over every record:
    [primary] iff no [linkedId], and a [linkedId] names a primary. *)
Definition linkInvAll (cs : list Contact) : Prop :=
  forall c, In c cs ->
    (linkPrecedence c = primary <-> linkedId c = None) /\
    (forall q, linkedId c = Some q ->
       exists p, In p cs /\ id p = q /\ linkPrecedence p = primary).

(** The same, with flatness required of non-deleted records only. *)
Definition linkInvLive (cs : list Contact) : Prop :=
  forall c, In c cs ->
    (linkPrecedence c = primary <-> linkedId c = None) /\
    (isLive c = true -> forall q, linkedId c = Some q ->
       exists p, In p cs /\ id p = q /\ linkPrecedence p = primary).

Definition wfBase (db : DB) : Prop := storeIds db /\ linkInvLive (contacts db).

(** Spec: a [linkedId] references an existing, non-deleted record. *)
Definition linksLive (cs : list Contact) : Prop :=
  forall c p, In c cs -> In p cs -> isLive c = true -> linkedId c = Some (id p) ->
    isLive p = true.

Definition wf (db : DB) : Prop := wfBase db /\ linksLive (contacts db).

(** Inputs as the normalisation collaborator hands them over. *)
Definition normalizedField (x : option string) : Prop :=
  match x with Some s => s <> EmptyString | None => True end.

(** ** Spec-side definitions *)

Definition createdLe (a b : Contact) : Prop := (createdAt a <= createdAt b)%Z.

(** Non-null, non-empty values, in order. *)
Definition presentValues (l : list (option string)) : list string :=
  flat_map (fun o => match o with
                     | Some s => if String.eqb s EmptyString then [] else [s]
                     | None => [] end) l.

(** A list with every repeated element removed at its later occurrences. *)
Fixpoint dropLaterDups (l : list string) : list string :=
  match l with
  | [] => []
  | x :: l' => x :: filter (fun y => negb (String.eqb y x)) (dropLaterDups l')
  end.

(** The surviving primary together with its non-deleted secondaries. *)
Definition groupOf (db : DB) (o : Contact) : list Contact :=
  o :: filter (linksTo (id o)) (contacts db).

(** The input supplies an email, or a phone, absent from [group]. *)
Definition suppliesNew (e p : option string) (group : list Contact) : Prop :=
  (exists s, e = Some s /\ ~ exists g, In g group /\ email g = Some s) \/
  (exists s, p = Some s /\ ~ exists g, In g group /\ phoneNumber g = Some s).

(** Every field the input supplies is already known to [group]. *)
Definition nothingNew (e p : option string) (group : list Contact) : Prop :=
  (forall s, e = Some s -> exists g, In g group /\ email g = Some s) /\
  (forall s, p = Some s -> exists g, In g group /\ phoneNumber g = Some s).

(** Hop [k] along [linkedId] from [o], as [findRootPrimary] follows it. *)
Definition nextLink (c : Contact) : option nat :=
  match linkPrecedence c, linkedId c with
  | secondary, Some l => if Nat.eqb l 0 then None else Some l
  | _, _ => None
  end.

Fixpoint nthHop (cs : list Contact) (k : nat) (o : option Contact) : option Contact :=
  match k with
  | 0 => o
  | S k' => match o with
            | Some c => match nextLink c with
                        | Some l => nthHop cs k' (findUniqueIn cs l)
                        | None => None
                        end
            | None => None
            end
  end.

(** The chain from [o] goes on for at least [n] more [linkedId] hops. *)
Fixpoint chainDeeper (cs : list Contact) (n : nat) (o : option Contact) : bool :=
  match n with
  | 0 => true
  | S n' => match o with
            | Some c => match nextLink c with
                        | Some l => chainDeeper cs n' (findUniqueIn cs l)
                        | None => false
                        end
            | None => false
            end
  end.

(** A match on one field: the input supplies a non-empty value equal to it. *)
Definition fieldMatch (x f : option string) : Prop :=
  exists s, x = Some s /\ s <> EmptyString /\ f = Some s.

Definition memIds (T : list Contact) (i : nat) : bool :=
  existsb (fun t => Nat.eqb (id t) i) T.

(** Net effect on one row of demoting every primary of [T] under [o]. *)
Definition mergeEffect (T : list Contact) (o : nat) (c : Contact) : Contact :=
  if memIds T (id c) then demoted c o
  else if isLive c && match linkedId c with Some l => memIds T l | None => false end
       then relinked c o
       else c.

Definition mergeLog (T : list Contact) (o : nat) : list Write :=
  flat_map (fun t => [WUpdateMany (id t) o; WUpdate (id t) o]) T.

(** [findRootPrimary] returns [r] for the match [m] on a well-formed store. *)
Definition resolvesTo (m r : Contact) : Prop :=
  (linkPrecedence m = primary /\ r = m) \/
  (linkPrecedence m = secondary /\ linkedId m = Some (id r)).

(** [Map] from ids to rows: keys distinct, each key the id of its row. *)
Definition mapOk (pm : list (nat * Contact)) : Prop :=
  NoDup (map fst pm) /\ forall k v, In (k, v) pm -> k = id v.

(** The list of a present field. *)
Definition optList (x : option string) : list string :=
  match x with Some s => [s] | None => [] end.

(** ** Concrete stores *)

Definition mkC (i : nat) (e p : string) (prec : LinkPrecedence) (l : option nat)
  (t : Z) (d : option Z) : Contact :=
  mkContact i (Some e) (Some p) prec l t d.

(** Two primaries created at the same instant. *)
Definition dbTie : DB :=
  mkDB [mkC 1 "a@x.edu" "111" primary None 0 None;
        mkC 2 "b@x.edu" "222" primary None 0 None] 3 5 [].

(** Two primaries; the newer one has a soft-deleted secondary. *)
Definition dbDeletedSecondary : DB :=
  mkDB [mkC 1 "a@x.edu" "111" primary None 0 None;
        mkC 2 "b@x.edu" "222" primary None 1 None;
        mkC 3 "c@x.edu" "333" secondary (Some 2) 2 (Some 3%Z)] 4 5 [].

(** Two secondaries linked to each other. *)
Definition dbCycle : DB :=
  mkDB [mkC 1 "a@x.edu" "111" secondary (Some 2) 0 None;
        mkC 2 "b@x.edu" "222" secondary (Some 1) 1 None] 3 5 [].

(** Two groups: 1 with secondary 3, and 2 with secondary 4. *)
Definition dbTwoGroups : DB :=
  mkDB [mkC 1 "a@x.edu" "111" primary None 0 None;
        mkC 2 "b@x.edu" "222" primary None 1 None;
        mkC 3 "c@x.edu" "111" secondary (Some 1) 2 None;
        mkC 4 "d@x.edu" "222" secondary (Some 2) 3 None] 5 6 [].

Definition emptyDB : DB := mkDB [] 1 0 [].

Definition conflictP2034 : Error := StoreError (Some "P2034"%string) None.

(** ** Request validation (middlewares/validateRequest.ts) *)

(** A JavaScript string: its sequence of UTF-16 code units. *)
Definition jsstr := list N.

(** A string literal of the source; all of them are ASCII. *)
Definition lit (s : string) : jsstr := map N_of_ascii (list_ascii_of_string s).

(** [===] on strings. *)
Fixpoint jsEqb (a b : jsstr) : bool :=
  match a, b with
  | [], [] => true
  | x :: a', y :: b' => N.eqb x y && jsEqb a' b'
  | _, _ => false
  end.

(** The code points of ECMAScript's [WhiteSpace] and [LineTerminator],
    which [trim] strips: U+0009..U+000D, U+0020, U+00A0, U+1680,
    U+2000..U+200A, U+2028, U+2029, U+202F, U+205F, U+3000 and U+FEFF.
    None of them is a surrogate, so stripping them code unit by code unit
    is stripping them code point by code point. *)
Definition isJsSpace (c : N) : bool :=
  (N.leb 9 c && N.leb c 13) || N.eqb c 32 || N.eqb c 160 || N.eqb c 5760 ||
  (N.leb 8192 c && N.leb c 8202) || N.eqb c 8232 || N.eqb c 8233 ||
  N.eqb c 8239 || N.eqb c 8287 || N.eqb c 12288 || N.eqb c 65279.

Fixpoint dropSpaces (l : jsstr) : jsstr :=
  match l with
  | [] => []
  | a :: l' => if isJsSpace a then dropSpaces l' else l
  end.

(** [String.prototype.trim] *)
Definition trim (s : jsstr) : jsstr := rev (dropSpaces (rev (dropSpaces s))).

(** [if (x === '') x = null;] *)
Definition emptyToNull (s : jsstr) : option jsstr :=
  match s with [] => None | _ :: _ => Some s end.

(** [!x] is false: [x] is a non-empty string. *)
Definition truthyJ (x : option jsstr) : bool :=
  match x with Some (_ :: _) => true | _ => false end.

(** [Array.prototype.join] *)
Fixpoint join (sep : jsstr) (l : list jsstr) : jsstr :=
  match l with
  | [] => []
  | [x] => x
  | x :: l' => x ++ sep ++ join sep l'
  end.

Section Json.

(** JavaScript numbers and [Number.prototype.toString] on them. *)
Variable number : Type.
Variable numberToString : number -> jsstr.
(** [String.prototype.toLowerCase]: Unicode's full lower-case mapping.  It
    is left as a parameter, so what is proved of the validation holds for
    every lower-casing function. *)
Variable toLowerCase : jsstr -> jsstr.

#[local] Set Warnings "-register-all".
(** A value of the parsed JSON body ([express.json()]). *)
Inductive JVal :=
| JNull
| JBool (b : bool)
| JNum (n : number)
| JStr (s : jsstr)
| JArr (items : list JVal)
| JObj (fields : list (jsstr * JVal)).

(** [v.toString()]; [None] when it throws a TypeError.  An object parsed
    from JSON with an own key [toString] holds a non-callable value there,
    so calling it (directly, or through [Array.prototype.join]) throws;
    any other object gives '[object Object]'.  An array is joined with
    ',' and its [null] items become empty strings. *)
Fixpoint jsToString (v : JVal) : option jsstr :=
  match v with
  | JNull => None
  | JBool b => Some (if b then lit "true" else lit "false")
  | JNum n => Some (numberToString n)
  | JStr s => Some s
  | JArr items =>
      let fix parts (l : list JVal) : option (list jsstr) :=
        match l with
        | [] => Some []
        | x :: l' =>
            match (match x with JNull => Some [] | _ => jsToString x end), parts l' with
            | Some s, Some r => Some (s :: r)
            | _, _ => None
            end
        end in
      option_map (join (lit ",")) (parts items)
  | JObj fields =>
      if existsb (fun kv => jsEqb (fst kv) (lit "toString")) fields then None
      else Some (lit "[object Object]")
  end.

(** What the middleware does with the request: answer with a status and
    an error body, pass the rewritten [email] and [phoneNumber] to [next()],
    or throw (Express hands the exception to the error handler). *)
Inductive Outcome :=
| Reject (status : nat) (error : string)
| Next (email phoneNumber : option jsstr)
| Thrown.

(** The [email] block of [validateIdentifyRequest]: [None] when it answers
    400, else the rewritten field. *)
Definition normEmail (email : option JVal) : option (option jsstr) :=
  match email with
  | None | Some JNull => Some None
  | Some (JStr s) => Some (emptyToNull (toLowerCase (trim s)))
  | Some _ => None
  end.

(** The [phoneNumber] block: [None] when [toString] throws, else the
    rewritten field. *)
Definition normPhone (phoneNumber : option JVal) : option (option jsstr) :=
  match phoneNumber with
  | None | Some JNull => Some None
  | Some v =>
      match jsToString v with
      | None => None
      | Some s => Some (emptyToNull (trim s))
      end
  end.

(** [validateIdentifyRequest]; [email] and [phoneNumber] are the two
    fields of [req.body], [None] when undefined. *)
Definition validateIdentifyRequest (email phoneNumber : option JVal) : Outcome :=
  match normEmail email with
  | None => Reject 400 "email must be a string"
  | Some email' =>
      match normPhone phoneNumber with
      | None => Thrown
      | Some phone' =>
          if negb (truthyJ email') && negb (truthyJ phone')
          then Reject 400 "At least one of email or phoneNumber is required"
          else Next email' phone'
      end
  end.

End Json.

Arguments JNull {number}.
Arguments JBool {number} b.
Arguments JNum {number} n.
Arguments JStr {number} s.
Arguments JArr {number} items.
Arguments JObj {number} fields.
Arguments jsToString {number} numberToString v.
Arguments normEmail {number} toLowerCase email.
Arguments normPhone {number} numberToString phoneNumber.
Arguments validateIdentifyRequest {number} numberToString toLowerCase email phoneNumber.

(** ** Observation helpers *)

(** The columns of a row that no statement of [identifyContact] writes. *)
Definition rowData (c : Contact) : nat * option string * option string * Z * option Z :=
  (id c, email c, phoneNumber c, createdAt c, deletedAt c).

(** [db'] keeps every row of [db] with the same data, in the same place,
    adds at most [n] rows after them, only appends to the write log, and
    keeps the clock. *)
Definition keepsRows (n : nat) (db db' : DB) : Prop :=
  (exists extra, map rowData (contacts db') = map rowData (contacts db) ++ map rowData extra /\
                 length extra <= n) /\
  (exists w, log db' = log db ++ w) /\ clock db' = clock db.

(** A string with no white space at either end. *)
Definition trimmedStr (s : jsstr) : Prop :=
  dropSpaces s = s /\ dropSpaces (rev s) = rev s.

(** * Proofs *)

(** ** withRetry *)

Lemma withRetry_3 {A} (fn : nat -> Error + A) :
  let '(r, n) := withRetry fn 3 in
  1 <= n <= 3 /\ r = fn (n - 1) /\
  (forall i, i < n - 1 -> exists err, fn i = inl err /\ isRetryable err = true) /\
  (n < 3 -> forall err, r = inl err -> isRetryable err = false).
Proof.
  unfold withRetry; cbn.
  destruct (fn 0) as [e0|a0] eqn:H0; cbn.
  2:{ split; [lia|]. split; [auto|]. split; [intros i Hi; lia|]. intros _ err [=]. }
  destruct (isRetryable e0) eqn:R0; cbn.
  2:{ split; [lia|]. split; [auto|]. split; [intros i Hi; lia|]. intros _ err [= <-]; auto. }
  destruct (fn 1) as [e1|a1] eqn:H1; cbn.
  2:{ split; [lia|]. split; [auto|]. split; [|intros _ err [=]].
      intros i Hi; assert (i = 0) by lia; subst; eauto. }
  destruct (isRetryable e1) eqn:R1; cbn.
  2:{ split; [lia|]. split; [auto|]. split; [|intros _ err [= <-]; auto].
      intros i Hi; assert (i = 0) by lia; subst; eauto. }
  destruct (fn 2) as [e2|a2] eqn:H2; cbn; [destruct (isRetryable e2); cbn|];
    (split; [lia|]; split; [auto|]; split; [|intros; lia];
     intros i Hi; destruct i as [|[|]]; [eauto | eauto | lia]).
Qed.

(** ** findRootPrimary *)

Lemma followLinks_deep cs i : forall r o,
  chainDeeper cs (S r) o = true -> followLinks cs i r o = inl (CircularLink i).
Proof.
  induction r as [|r IH]; intros [c|] H; cbn in H |- *; try discriminate;
    unfold nextLink in H; destruct (linkPrecedence c), (linkedId c) as [l|];
    try discriminate; destruct (Nat.eqb l 0); try discriminate; auto.
Qed.

Lemma followLinks_hops cs i : forall r o c,
  followLinks cs i r o = inr c -> exists k, k <= r /\ nthHop cs k o = Some c.
Proof.
  induction r as [|r IH]; intros [c'|] c H; cbn in H; try discriminate;
    destruct (linkPrecedence c') eqn:P, (linkedId c') as [l|] eqn:L;
    try (injection H as <-; exists 0; split; [lia | reflexivity]);
    destruct (Nat.eqb l 0) eqn:E;
    try (injection H as <-; exists 0; split; [lia | reflexivity]);
    try discriminate.
  destruct (IH _ _ H) as [k [Hk Hh]].
  exists (S k); split; [lia|]. cbn. unfold nextLink. now rewrite P, L, E.
Qed.

Lemma circular_not_retryable x : isRetryable (CircularLink x) = false.
Proof. reflexivity. Qed.

(** ** Generic list facts *)

Lemma filter_nil_of {A} (f : A -> bool) l :
  (forall x, In x l -> f x = false) -> filter f l = [].
Proof.
  induction l as [|x l IH]; intros H; cbn; auto.
  rewrite (H x (or_introl eq_refl)). apply IH. intros y Hy. apply H. now right.
Qed.

Lemma optNatEqb_true o n : optNatEqb o n = true <-> o = Some n.
Proof.
  destruct o as [m|]; cbn; split; intros H; try discriminate.
  - apply Nat.eqb_eq in H; now subst.
  - injection H as ->. apply Nat.eqb_refl.
Qed.

Lemma linksTo_true p c : linksTo p c = true <-> linkedId c = Some p /\ isLive c = true.
Proof.
  unfold linksTo. rewrite andb_true_iff, optNatEqb_true. tauto.
Qed.

(** ** Sorting by [createdAt] *)

Lemma insert_perm x l : Permutation (insertByCreatedAt x l) (x :: l).
Proof.
  induction l as [|y l IH]; cbn; auto.
  destruct (Z.leb (createdAt x) (createdAt y)); auto.
  eapply perm_trans; [apply perm_skip, IH | apply perm_swap].
Qed.

Lemma sort_perm l : Permutation (sortByCreatedAt l) l.
Proof.
  induction l as [|x l IH]; cbn; auto.
  eapply perm_trans; [apply insert_perm | now apply perm_skip].
Qed.

Lemma insert_hd y x l :
  HdRel createdLe y l -> createdLe y x -> HdRel createdLe y (insertByCreatedAt x l).
Proof.
  destruct l as [|z l]; cbn; intros H Hyx; [now constructor|].
  destruct (Z.leb (createdAt x) (createdAt z)); constructor; auto.
  now inversion H.
Qed.

Lemma insert_sorted x l : Sorted createdLe l -> Sorted createdLe (insertByCreatedAt x l).
Proof.
  induction l as [|y l IH]; intros H; cbn; auto.
  destruct (Z.leb (createdAt x) (createdAt y)) eqn:E.
  - apply Z.leb_le in E. constructor; auto.
  - apply Z.leb_gt in E. inversion H; subst. constructor; auto.
    apply insert_hd; auto. unfold createdLe; lia.
Qed.

Lemma sort_sorted l : Sorted createdLe (sortByCreatedAt l).
Proof. induction l; cbn; auto using insert_sorted. Qed.

(** The head of the sorted list is the first element of minimal [createdAt]. *)
Lemma sort_head l : l <> [] ->
  exists pre o post rest,
    l = pre ++ o :: post /\ sortByCreatedAt l = o :: rest /\
    Forall (fun r => (createdAt o < createdAt r)%Z) pre /\
    Forall (fun r => (createdAt o <= createdAt r)%Z) post.
Proof.
  induction l as [|x l IH]; intros Hne; [congruence|].
  destruct l as [|y l'].
  - exists [], x, [], []. repeat split; auto.
  - destruct IH as [pre [o [post [rest [El [Es [Hpre Hpost]]]]]]]; [discriminate|].
    change (sortByCreatedAt (x :: y :: l')) with
      (insertByCreatedAt x (sortByCreatedAt (y :: l'))).
    rewrite Es; cbn.
    destruct (Z.leb (createdAt x) (createdAt o)) eqn:E.
    + apply Z.leb_le in E.
      exists [], x, (y :: l'), (o :: rest). repeat split; auto.
      rewrite El. apply Forall_app; split.
      * eapply Forall_impl; [|exact Hpre]. intros r Hr; cbn in Hr; lia.
      * constructor; [lia|]. eapply Forall_impl; [|exact Hpost]. intros r Hr; cbn in Hr; lia.
    + apply Z.leb_gt in E.
      exists (x :: pre), o, post, (insertByCreatedAt x rest).
      repeat split; auto. now rewrite El.
Qed.

(** ** Store invariants *)

Lemma no_links_to_next db :
  wfBase db -> filter (linksTo (next_id db)) (contacts db) = [].
Proof.
  intros [Hids Hinv]. apply filter_nil_of. intros c Hc.
  destruct (linksTo (next_id db) c) eqn:E; auto.
  apply linksTo_true in E as [El Ed].
  destruct (proj2 (Hinv c Hc) Ed _ El) as [p [Hp [Hid _]]].
  pose proof (ids_fresh _ Hids p Hp). lia.
Qed.

(** ** Lookup *)

Lemma optStrEqb_true o s : optStrEqb o s = true <-> o = Some s.
Proof.
  destruct o as [x|]; cbn; split; intros H; try discriminate.
  - apply String.eqb_eq in H; now subst.
  - injection H as ->. apply String.eqb_refl.
Qed.

Lemma whenTruthy_email x db :
  exists L, whenTruthy x findManyByEmail db = inr (L, db) /\
    forall c, In c L <-> In c (contacts db) /\ isLive c = true /\ fieldMatch x (email c).
Proof.
  unfold fieldMatch. destruct x as [s|]; cbn.
  - destruct (String.eqb s EmptyString) eqn:E; cbn.
    + apply String.eqb_eq in E. subst. eexists; split; [reflexivity|].
      intros c; split; [intros []|intros (_ & _ & s' & [= <-] & H & _); congruence].
    + apply String.eqb_neq in E. eexists; split; [reflexivity|].
      intros c. rewrite filter_In, andb_true_iff, optStrEqb_true. split.
      * intros (Hc & He & Hl). repeat split; eauto.
      * intros (Hc & Hl & s' & [= <-] & _ & He). auto.
  - eexists; split; [reflexivity|].
    intros c; split; [intros []|intros (_ & _ & s' & H & _); discriminate].
Qed.

Lemma whenTruthy_phone x db :
  exists L, whenTruthy x findManyByPhone db = inr (L, db) /\
    forall c, In c L <-> In c (contacts db) /\ isLive c = true /\ fieldMatch x (phoneNumber c).
Proof.
  unfold fieldMatch. destruct x as [s|]; cbn.
  - destruct (String.eqb s EmptyString) eqn:E; cbn.
    + apply String.eqb_eq in E. subst. eexists; split; [reflexivity|].
      intros c; split; [intros []|intros (_ & _ & s' & [= <-] & H & _); congruence].
    + apply String.eqb_neq in E. eexists; split; [reflexivity|].
      intros c. rewrite filter_In, andb_true_iff, optStrEqb_true. split.
      * intros (Hc & He & Hl). repeat split; eauto.
      * intros (Hc & Hl & s' & [= <-] & _ & He). auto.
  - eexists; split; [reflexivity|].
    intros c; split; [intros []|intros (_ & _ & s' & H & _); discriminate].
Qed.

Lemma dedupById_incl seen l x : In x (dedupById seen l) -> In x l.
Proof.
  revert seen; induction l as [|c l IH]; intros seen H; cbn in H; [contradiction|].
  destruct (existsb (Nat.eqb (id c)) seen).
  - right. eapply IH; eauto.
  - destruct H as [<-|H]; [now left | right; eapply IH; eauto].
Qed.

Lemma dedupById_cover seen l x :
  In x l -> ~ In (id x) seen -> exists y, In y (dedupById seen l) /\ id y = id x.
Proof.
  revert seen; induction l as [|c l IH]; intros seen Hx Hs; [contradiction|]; cbn.
  destruct (existsb (Nat.eqb (id c)) seen) eqn:E.
  - destruct Hx as [<-|Hx].
    + exfalso. apply existsb_exists in E as [k [Hk Ek]].
      apply Nat.eqb_eq in Ek. subst. contradiction.
    + now apply IH.
  - destruct (Nat.eq_dec (id c) (id x)) as [Ei|Ei].
    + exists c. split; [now left | exact Ei].
    + destruct Hx as [<-|Hx]; [congruence|].
      destruct (IH (id c :: seen) Hx) as [y [Hy Ey]].
      * intros [H|H]; [congruence | contradiction].
      * exists y. split; [now right | exact Ey].
Qed.

Lemma nodup_ids_eq cs x y :
  NoDup (map id cs) -> In x cs -> In y cs -> id x = id y -> x = y.
Proof.
  induction cs as [|c cs IH]; intros Hn Hx Hy E; [contradiction|].
  inversion Hn as [|? ? Hnin Hn']; subst.
  destruct Hx as [<-|Hx], Hy as [<-|Hy]; auto.
  - exfalso. apply Hnin. rewrite E. now apply in_map.
  - exfalso. apply Hnin. rewrite <- E. now apply in_map.
Qed.

Lemma lookup_spec e p db ms db' :
  lookupMatches e p db = inr (ms, db') ->
  db' = db /\
  (forall m, In m ms -> In m (contacts db) /\ isLive m = true /\
     (fieldMatch e (email m) \/ fieldMatch p (phoneNumber m))) /\
  (NoDup (map id (contacts db)) -> forall c, In c (contacts db) -> isLive c = true ->
     fieldMatch e (email c) \/ fieldMatch p (phoneNumber c) -> In c ms).
Proof.
  destruct (whenTruthy_email e db) as [L1 [E1 H1]].
  destruct (whenTruthy_phone p db) as [L2 [E2 H2]].
  unfold lookupMatches, bind. rewrite E1, E2. unfold ret. intros H; injection H as <- <-.
  split; [reflexivity|]. split.
  - intros m Hm. apply dedupById_incl in Hm. apply in_app_or in Hm as [Hm|Hm].
    + apply H1 in Hm. tauto.
    + apply H2 in Hm. tauto.
  - intros Hn c Hc Hl Hf.
    assert (Hin : In c (L1 ++ L2)).
    { apply in_or_app. destruct Hf; [left; apply H1 | right; apply H2]; auto. }
    destruct (dedupById_cover [] _ _ Hin (fun H => H)) as [y [Hy Ey]].
    assert (Hyc : In y (contacts db)).
    { apply dedupById_incl in Hy. apply in_app_or in Hy as [Hy|Hy];
        [apply H1 in Hy | apply H2 in Hy]; tauto. }
    now rewrite <- (nodup_ids_eq _ _ _ Hn Hyc Hc Ey).
Qed.

Lemma lookup_ok e p db : exists ms, lookupMatches e p db = inr (ms, db).
Proof.
  destruct (whenTruthy_email e db) as [L1 [E1 _]].
  destruct (whenTruthy_phone p db) as [L2 [E2 _]].
  unfold lookupMatches, bind. rewrite E1, E2. eexists. reflexivity.
Qed.

(** ** Root resolution on a well-formed store *)

Lemma findUnique_in cs c :
  NoDup (map id cs) -> In c cs -> findUniqueIn cs (id c) = Some c.
Proof.
  induction cs as [|c' cs IH]; intros Hn Hc; [contradiction|].
  inversion Hn as [|? ? Hnin Hn']; subst. cbn.
  destruct (Nat.eqb (id c') (id c)) eqn:E.
  - apply Nat.eqb_eq in E. destruct Hc as [<-|Hc]; auto.
    exfalso. apply Hnin. rewrite E. now apply in_map.
  - destruct Hc as [<-|Hc]; [now rewrite Nat.eqb_refl in E | auto].
Qed.

Lemma root_of_match db m :
  wfBase db -> In m (contacts db) -> isLive m = true ->
  exists r, findRootPrimaryIn (contacts db) (rootStart m) 10 = inr r /\
    In r (contacts db) /\ linkPrecedence r = primary /\
    ((linkPrecedence m = primary /\ r = m) \/
     (linkPrecedence m = secondary /\ linkedId m = Some (id r))).
Proof.
  intros [Hids Hinv] Hm Hl.
  destruct (Hinv m Hm) as [Hp Hlk].
  destruct (linkPrecedence m) eqn:Pm.
  - assert (Lm : linkedId m = None) by (apply Hp; reflexivity).
    exists m. unfold rootStart, findRootPrimaryIn. rewrite Pm.
    rewrite (findUnique_in _ _ (ids_nodup _ Hids) Hm). cbn. rewrite Pm.
    repeat split; auto.
  - destruct (linkedId m) as [q|] eqn:Lm.
    2:{ exfalso. assert (H : secondary = primary) by (apply Hp; reflexivity). discriminate. }
    destruct (Hlk Hl q eq_refl) as [r [Hr [Hid Hpr]]]. subst q.
    pose proof (ids_pos _ Hids r Hr) as Hpos.
    exists r. unfold rootStart, findRootPrimaryIn. rewrite Pm, Lm.
    destruct (Nat.eqb (id r) 0) eqn:E0; [apply Nat.eqb_eq in E0; lia|].
    rewrite (findUnique_in _ _ (ids_nodup _ Hids) Hr). cbn. rewrite Hpr.
    repeat split; auto.
Qed.

(** ** The root map *)

Lemma mapSet_keys k v pm : map fst (mapSet k v pm) = 
  if existsb (Nat.eqb k) (map fst pm) then map fst pm else map fst pm ++ [k].
Proof.
  induction pm as [|[k' v'] pm IH]; cbn; auto.
  destruct (Nat.eqb k k') eqn:E; cbn.
  - apply Nat.eqb_eq in E; now subst.
  - rewrite IH. destruct (existsb (Nat.eqb k) (map fst pm)); reflexivity.
Qed.

Lemma mapSet_in k v pm w : In w (map snd (mapSet k v pm)) -> w = v \/ In w (map snd pm).
Proof.
  induction pm as [|[k' v'] pm IH]; cbn; intros H.
  - destruct H as [<-|[]]; auto.
  - destruct (Nat.eqb k k'); cbn in H.
    + destruct H as [<-|H]; auto.
    + destruct H as [<-|H]; auto. destruct (IH H); auto.
Qed.

Lemma mapSet_has k v pm : In v (map snd (mapSet k v pm)).
Proof.
  induction pm as [|[k' v'] pm IH]; cbn; auto.
  destruct (Nat.eqb k k'); cbn; auto.
Qed.

Lemma mapSet_pairs k v pm kv : In kv (mapSet k v pm) -> kv = (k, v) \/ In kv pm.
Proof.
  induction pm as [|[k' v'] pm IH]; cbn; intros H.
  - destruct H as [<-|[]]; auto.
  - destruct (Nat.eqb k k') eqn:E; cbn in H.
    + destruct H as [<-|H]; auto.
    + destruct H as [<-|H]; auto. destruct (IH H); auto.
Qed.

Lemma mapSet_ok v pm : mapOk pm -> mapOk (mapSet (id v) v pm).
Proof.
  intros [Hn Hk]. split.
  - rewrite mapSet_keys. destruct (existsb (Nat.eqb (id v)) (map fst pm)) eqn:E; auto.
    apply NoDup_app; auto.
    + constructor; [intros []|constructor].
    + intros x Hx [Ex|[]]. assert (existsb (Nat.eqb (id v)) (map fst pm) = true).
      { apply existsb_exists. exists x. split; auto. rewrite Ex. apply Nat.eqb_refl. }
      congruence.
  - intros k w H. apply mapSet_pairs in H as [[= -> ->]|H]; auto.
Qed.

Lemma mapSet_keep v pm w : mapOk pm -> In w (map snd pm) ->
  exists w', In w' (map snd (mapSet (id v) v pm)) /\ id w' = id w.
Proof.
  intros [_ Hk]. induction pm as [|[k' v'] pm IH]; cbn; intros H; [contradiction|].
  assert (Hk' : k' = id v') by (apply Hk; now left).
  destruct (Nat.eqb (id v) k') eqn:E; cbn.
  - destruct H as [->|H].
    + exists v. split; [now left|]. apply Nat.eqb_eq in E. congruence.
    + exists w. split; auto.
  - destruct H as [->|H].
    + exists w. split; auto.
    + destruct IH as [w' [Hw' Ew']]; auto.
      * intros k x Hx. apply Hk. now right.
      * exists w'. split; auto.
Qed.

Section RootMap.
Variable db : DB.
Let Root (m r : Contact) : Prop :=
    findRootPrimaryIn (contacts db) (rootStart m) 10 = inr r.

Lemma resolveRoots_spec ms : forall pm,
    mapOk pm -> (forall m, In m ms -> exists r, Root m r) ->
    exists pm', resolveRoots ms pm db = inr (pm', db) /\ mapOk pm' /\
      (forall v, In v (map snd pm') -> In v (map snd pm) \/ exists m, In m ms /\ Root m v) /\
      (forall m r, In m ms -> Root m r -> exists v, In v (map snd pm') /\ id v = id r) /\
      (forall w, In w (map snd pm) -> exists w', In w' (map snd pm') /\ id w' = id w).
  Proof.
    induction ms as [|m ms IH]; intros pm Hok Hr; cbn.
    - exists pm. repeat split; try apply Hok; eauto. intros m r [].
    - destruct (Hr m (or_introl eq_refl)) as [r Er].
      unfold bind, findRootPrimary. unfold Root in Er. rewrite Er.
      destruct (IH (mapSet (id r) r pm)) as [pm' (E & Hok' & Hv & Hm & Hw)].
      + now apply mapSet_ok.
      + intros m' Hm'. apply Hr. now right.
      + exists pm'. split; [exact E|]. split; [exact Hok'|]. split; [|split].
        * intros v Hv'. destruct (Hv v Hv') as [H|[m' [Hm' Hr']]].
          -- apply mapSet_in in H as [->|H]; [|now left].
             right. exists m. split; [now left | exact Er].
          -- right. exists m'. split; [now right | exact Hr'].
        * intros m' r' [<-|Hm'] Hr'.
          -- unfold Root in Hr'. rewrite Er in Hr'. injection Hr' as <-.
             apply Hw, mapSet_has.
          -- eauto.
        * intros w Hw'. destruct (mapSet_keep r pm w Hok Hw') as [w' [Hw1 Ew1]].
          destruct (Hw w' Hw1) as [w'' [Hw2 Ew2]]. exists w''. split; congruence.
  Qed.
End RootMap.

Lemma mapOk_nodup pm : mapOk pm -> NoDup (map id (map snd pm)).
Proof.
  intros [Hn Hk]. replace (map id (map snd pm)) with (map fst pm); auto.
  rewrite map_map. apply map_ext_in. intros [k v] H. cbn. now apply Hk.
Qed.

(** ** The merge loop *)

Lemma mergeEffect_id T o c : id (mergeEffect T o c) = id c.
Proof. unfold mergeEffect. destruct (memIds T (id c)); [reflexivity|]. now destruct (_ && _). Qed.

Lemma step_mergeEffect t T o c :
  memIds (t :: T) o = false ->
  mergeEffect T o (demote (id t) o (relink (id t) o c)) = mergeEffect (t :: T) o c.
Proof.
  intros Ho. unfold memIds in Ho; cbn in Ho.
  apply orb_false_iff in Ho as [Ho1 Ho2].
  destruct c as [ci ce cp cpr cl cc cd].
  unfold mergeEffect, memIds, demote, relink, linksTo, isLive, optNatEqb, demoted, relinked.
  destruct cd, cl as [l|]; cbn;
  try destruct (Nat.eqb l (id t)) eqn:?; cbn;
  destruct (Nat.eqb ci (id t)) eqn:?; cbn;
  repeat match goal with
         | |- context [Nat.eqb ?a ?b] => destruct (Nat.eqb a b) eqn:?; cbn
         | |- context [existsb ?f ?T] => destruct (existsb f T) eqn:?; cbn
         end;
  try reflexivity;
  repeat match goal with
         | H : Nat.eqb _ _ = true |- _ => apply Nat.eqb_eq in H
         | H : Nat.eqb _ _ = false |- _ => apply Nat.eqb_neq in H
         end; subst; try congruence.
Qed.

Lemma memIds_true T i : memIds T i = true <-> exists t, In t T /\ id t = i.
Proof.
  unfold memIds. rewrite existsb_exists. split; intros [t [Ht E]]; exists t;
    split; auto; [now apply Nat.eqb_eq | now apply Nat.eqb_eq].
Qed.

Lemma mergeEffect_nil o c : mergeEffect [] o c = c.
Proof. unfold mergeEffect; cbn. rewrite andb_comm. now destruct (linkedId c). Qed.

Lemma mergeEffect_fields T o c :
  email (mergeEffect T o c) = email c /\ phoneNumber (mergeEffect T o c) = phoneNumber c /\
  createdAt (mergeEffect T o c) = createdAt c /\ isLive (mergeEffect T o c) = isLive c.
Proof.
  unfold mergeEffect. destruct (memIds T (id c)); [repeat split|].
  destruct (_ && _); repeat split.
Qed.

Lemma relink_id t o c : id (relink t o c) = id c.
Proof. unfold relink. now destruct (linksTo t c). Qed.

Lemma demote_id t o c : id (demote t o c) = id c.
Proof. unfold demote. now destruct (Nat.eqb (id c) t). Qed.

(** The loop of demotions, in closed form. *)
Lemma mergeNewer_eq o T : forall db,
  (forall t, In t T -> In (id t) (map id (contacts db))) ->
  memIds T (id o) = false ->
  mergeNewer o T db =
    inr (tt, mkDB (map (mergeEffect T (id o)) (contacts db)) (next_id db) (clock db)
                  (log db ++ mergeLog T (id o))).
Proof.
  induction T as [|t T IH]; intros db HT Ho; cbn.
  - unfold ret. rewrite app_nil_r. erewrite map_ext; [rewrite map_id|apply mergeEffect_nil].
    now destruct db.
  - unfold bind, updateManyLinked, updateDemote; cbn.
    assert (Ht : existsb (fun c => Nat.eqb (id c) (id t))
                   (map (relink (id t) (id o)) (contacts db)) = true).
    { apply existsb_exists. destruct (proj1 (in_map_iff _ _ _) (HT t (or_introl eq_refl)))
        as [c [Ec Hc]].
      exists (relink (id t) (id o) c). split; [now apply in_map|].
      rewrite relink_id, Ec. apply Nat.eqb_refl. }
    rewrite Ht. rewrite IH; cbn.
    + rewrite !map_map, <- !app_assoc. f_equal. f_equal. f_equal.
      apply map_ext. intros c. now apply step_mergeEffect.
    + intros t' Ht'. rewrite !map_map.
      erewrite map_ext; [now apply HT; right | intros c; now rewrite demote_id, relink_id].
    + unfold memIds in Ho |- *. cbn in Ho. now apply orb_false_iff in Ho.
Qed.

(** ** Stages of [identifyBody] *)

Lemma buildResponse_eq o db :
  buildResponse o db =
    inr (mkResponse (id o)
           (uniqStr (truthyVals (map email (o :: sortByCreatedAt (filter (linksTo (id o)) (contacts db))))))
           (uniqStr (truthyVals (map phoneNumber (o :: sortByCreatedAt (filter (linksTo (id o)) (contacts db))))))
           (map id (sortByCreatedAt (filter (linksTo (id o)) (contacts db)))), db).
Proof. reflexivity. Qed.

Lemma resolveRoots_db ms : forall pm db pm' db',
  resolveRoots ms pm db = inr (pm', db') -> db' = db.
Proof.
  induction ms as [|m ms IH]; intros pm db pm' db' H; cbn in H.
  - unfold ret in H. congruence.
  - unfold bind, findRootPrimary in H.
    destruct (findRootPrimaryIn (contacts db) (rootStart m) 10); [discriminate|].
    eapply IH; exact H.
Qed.

Lemma resolveAndMerge_inv ms db o dbm :
  resolveAndMerge ms db = inr (o, dbm) ->
  exists pm rest, resolveRoots ms [] db = inr (pm, db) /\
    sortByCreatedAt (map snd pm) = o :: rest /\ mergeNewer o rest db = inr (tt, dbm).
Proof.
  unfold resolveAndMerge, bind at 1. intros H.
  destruct (resolveRoots ms [] db) as [|[pm db1]] eqn:E; [discriminate|].
  pose proof (resolveRoots_db _ _ _ _ _ E); subst db1.
  destruct (sortByCreatedAt (map snd pm)) as [|o' rest] eqn:Es; [discriminate|].
  unfold bind in H.
  assert (Hm : mergeNewer o' rest db = inr (tt, dbm) /\ o' = o).
  { destruct (Nat.ltb 1 (length (o' :: rest))) eqn:El.
    - destruct (mergeNewer o' rest db) as [|[[] d]] eqn:Em; [discriminate|].
      cbn in H. injection H as -> ->. auto.
    - cbn in H. injection H as -> ->. split; auto.
      destruct rest; [reflexivity|]. cbn in El. discriminate. }
  destruct Hm as [Hm <-]. exists pm, rest. auto.
Qed.

Lemma body_matched e p db ms v db' :
  lookupMatches e p db = inr (ms, db) -> ms <> [] ->
  identifyBody e p db = inr (v, db') ->
  exists o dbm dba, resolveAndMerge ms db = inr (o, dbm) /\
    addIfNew e p ms o dbm = inr (tt, dba) /\ buildResponse o dba = inr (v, db').
Proof.
  intros Hl Hne H. unfold identifyBody, bind at 1 in H. rewrite Hl in H.
  destruct ms as [|m ms]; [congruence|].
  unfold bind in H.
  destruct (resolveAndMerge (m :: ms) db) as [|[o dbm]] eqn:E1; [discriminate|].
  destruct (addIfNew e p (m :: ms) o dbm) as [|[[] dba]] eqn:E2; [discriminate|].
  exists o, dbm, dba. auto.
Qed.

Lemma buildResponse_id o db v db' :
  buildResponse o db = inr (v, db') -> primaryContatctId v = id o /\ db' = db.
Proof. rewrite buildResponse_eq. intros H; injection H as <- <-. auto. Qed.

(** The state after [resolveAndMerge] on a well-formed store. *)
Lemma merge_state db ms surv dbm :
  wf db -> (forall m, In m ms -> In m (contacts db) /\ isLive m = true) ->
  resolveAndMerge ms db = inr (surv, dbm) ->
  exists pm targets,
    resolveRoots ms [] db = inr (pm, db) /\
    sortByCreatedAt (map snd pm) = surv :: targets /\
    dbm = mkDB (map (mergeEffect targets (id surv)) (contacts db)) (next_id db) (clock db)
               (log db ++ mergeLog targets (id surv)) /\
    (forall r, In r (surv :: targets) ->
       In r (contacts db) /\ linkPrecedence r = primary /\ isLive r = true) /\
    NoDup (map id (surv :: targets)) /\
    (forall m, In m ms -> exists r, In r (surv :: targets) /\ resolvesTo m r) /\
    (forall r, In r (surv :: targets) -> exists m, In m ms /\ resolvesTo m r).
Proof.
  intros [Hb Hll] Hms H.
  destruct (resolveAndMerge_inv _ _ _ _ H) as [pm [rest [Hpm [Hs Hm]]]].
  assert (Hr : forall m, In m ms -> exists r,
             findRootPrimaryIn (contacts db) (rootStart m) 10 = inr r /\
             In r (contacts db) /\ linkPrecedence r = primary /\ isLive r = true /\
             resolvesTo m r).
  { intros m Hm'. destruct (Hms m Hm') as [Hc Hl].
    destruct (root_of_match db m Hb Hc Hl) as [r [E [Hrc [Hrp Hrel]]]].
    exists r. split; [exact E|]. split; [exact Hrc|]. split; [exact Hrp|].
    split; [|exact Hrel].
    destruct Hrel as [[_ ->]|[_ Hlk]]; [exact Hl | exact (Hll m r Hc Hrc Hl Hlk)]. }
  destruct (resolveRoots_spec db ms [])
    as [pm' (E & Hok & Hv & Hcov & _)].
  { split; [constructor | intros k v []]. }
  { intros m Hm'. destruct (Hr m Hm') as [r [E _]]. eauto. }
  rewrite Hpm in E. injection E as <-.
  assert (Hperm : Permutation (surv :: rest) (map snd pm)) by (rewrite <- Hs; apply sort_perm).
  assert (Hroot : forall r, In r (surv :: rest) -> exists m, In m ms /\
            findRootPrimaryIn (contacts db) (rootStart m) 10 = inr r).
  { intros r Hin. apply (Permutation_in _ Hperm) in Hin.
    destruct (Hv r Hin) as [[]|[m [Hm' E]]]. eauto. }
  assert (Hprops : forall r, In r (surv :: rest) -> exists m, In m ms /\
            In r (contacts db) /\ linkPrecedence r = primary /\ isLive r = true /\
            resolvesTo m r).
  { intros r Hin. destruct (Hroot r Hin) as [m [Hm' E]].
    destruct (Hr m Hm') as [r' [E' Hr']]. rewrite E in E'. injection E' as <-. eauto. }
  assert (Hnd : NoDup (map id (surv :: rest))).
  { apply (Permutation_NoDup (Permutation_sym (Permutation_map id Hperm))).
    now apply mapOk_nodup. }
  exists pm, rest. split; [exact Hpm|]. split; [exact Hs|]. split; [|split; [|split; [exact Hnd|split]]].
  - rewrite mergeNewer_eq in Hm; [congruence| |].
    + intros t Ht. apply in_map. now destruct (Hprops t (or_intror Ht)) as [m [_ [? _]]].
    + destruct (memIds rest (id surv)) eqn:Ei; auto.
      apply memIds_true in Ei as [t [Ht Et]]. inversion Hnd as [|? ? Hn _]; subst.
      exfalso. apply Hn. rewrite <- Et. now apply in_map.
  - intros r Hin. destruct (Hprops r Hin) as [m [_ Hp]]. tauto.
  - intros m Hm'. destruct (Hr m Hm') as [r [E [Hrc [_ [_ Hrel]]]]].
    destruct (Hcov m r Hm' E) as [v [Hvin Ev]].
    apply (Permutation_in _ (Permutation_sym Hperm)) in Hvin.
    destruct (Hprops v Hvin) as [m2 [_ [Hvc _]]].
    pose proof (nodup_ids_eq _ _ _ (ids_nodup _ (proj1 Hb)) Hvc Hrc Ev). subst v. eauto.
  - intros r Hin. destruct (Hprops r Hin) as [m [Hm' Hp]]. exists m. tauto.
Qed.

(** ** After the merge *)

Lemma mergeEffect_surv T o :
  linkedId o = None -> memIds T (id o) = false -> mergeEffect T (id o) o = o.
Proof. intros Hl Hm. unfold mergeEffect. rewrite Hm, Hl, andb_false_r. reflexivity. Qed.

(** A non-deleted record that resolves to one of the roots ends up as the
    surviving primary itself or linked to it. *)
Lemma merge_links db surv targets c :
  wfBase db -> In c (contacts db) -> isLive c = true ->
  (forall r, In r (surv :: targets) -> In r (contacts db) /\ linkPrecedence r = primary) ->
  memIds targets (id surv) = false ->
  (exists r, In r (surv :: targets) /\ resolvesTo c r) ->
  (c = surv /\ mergeEffect targets (id surv) c = c) \/
  linksTo (id surv) (mergeEffect targets (id surv) c) = true.
Proof.
  intros [Hids Hinv] Hc Hl Hroots Hsm [r [Hr Hrel]].
  assert (Hsl : linkedId surv = None).
  { destruct (Hroots surv (or_introl eq_refl)) as [Hs Hp]. now apply (Hinv surv Hs). }
  destruct Hrel as [[Hp Erc]|[Hp Hlk]].
  - subst r. destruct Hr as [<-|Ht].
    + left. split; [reflexivity|]. now apply mergeEffect_surv.
    + right. unfold mergeEffect.
      replace (memIds targets (id c)) with true
        by (symmetry; apply memIds_true; eauto).
      apply linksTo_true. split; [reflexivity | exact Hl].
  - right. unfold mergeEffect.
    replace (memIds targets (id c)) with false.
    2:{ symmetry. destruct (memIds targets (id c)) eqn:E; auto.
        apply memIds_true in E as [t [Ht Et]].
        destruct (Hroots t (or_intror Ht)) as [Htc Htp].
        rewrite (nodup_ids_eq _ _ _ (ids_nodup _ Hids) Htc Hc Et) in Htp. congruence. }
    rewrite Hl, Hlk. cbn.
    destruct Hr as [<-|Ht].
    + rewrite Hsm. now apply linksTo_true.
    + replace (memIds targets (id r)) with true
        by (symmetry; apply memIds_true; eauto).
      apply linksTo_true. split; [reflexivity | exact Hl].
Qed.

(** Every member of the merged group comes from a non-deleted record of the
    store with the same email and phone. *)
Lemma group_members db T surv g :
  In surv (contacts db) -> isLive surv = true ->
  In g (groupOf (mkDB (map (mergeEffect T (id surv)) (contacts db)) (next_id db) (clock db)
                      (log db ++ mergeLog T (id surv))) surv) ->
  exists c, In c (contacts db) /\ isLive c = true /\
    email c = email g /\ phoneNumber c = phoneNumber g.
Proof.
  intros Hs Hsl [<-|Hg]; [eauto|].
  cbn in Hg. apply filter_In in Hg as [Hg Hlk].
  apply in_map_iff in Hg as [c [<- Hc]].
  apply linksTo_true in Hlk as [_ Hl].
  destruct (mergeEffect_fields T (id surv) c) as (Ee & Ep & _ & El).
  exists c. rewrite <- El. auto.
Qed.

Lemma memStr_in s l : memStr s l = true <-> In s l.
Proof.
  unfold memStr. rewrite existsb_exists. split.
  - intros [x [Hx E]]. apply String.eqb_eq in E. now subst.
  - intros H. exists s. split; auto. apply String.eqb_refl.
Qed.

Lemma truthyVals_in L s : s <> EmptyString -> (In s (truthyVals L) <-> In (Some s) L).
Proof.
  intros Hs. induction L as [|[x|] L IH]; cbn; [tauto| |].
  - destruct (String.eqb x EmptyString) eqn:E.
    + apply String.eqb_eq in E. subst. rewrite IH. split; [auto|].
      intros [[= E2]|H]; [congruence | exact H].
    + cbn. rewrite IH. split; intros [H|H]; auto; left; congruence.
  - rewrite IH. split; [auto|]. intros [H|H]; [discriminate | exact H].
Qed.

Lemma hasNew_true x E :
  hasNew x E = true <-> exists s, x = Some s /\ s <> EmptyString /\ ~ In s E.
Proof.
  destruct x as [s|]; cbn.
  - rewrite andb_true_iff, !negb_true_iff. split.
    + intros [H1 H2]. exists s. split; [reflexivity|]. split.
      * intros Es. subst. now rewrite String.eqb_refl in H1.
      * intros H. apply memStr_in in H. congruence.
    + intros [s' [[= <-] [H1 H2]]]. split.
      * now apply String.eqb_neq.
      * apply not_true_is_false. now rewrite memStr_in.
  - split; [discriminate | intros [s [H _]]; discriminate].
Qed.

(** The test [x && !existing.has(x)] against a group of records that covers
    the matches [ms] and whose values all occur among them. *)
Lemma hasNew_group (f : Contact -> option string) (G ms : list Contact) x :
  (forall m, In m ms -> exists g, In g G /\ f g = f m) ->
  (forall s, x = Some s -> s <> EmptyString -> (exists g, In g G /\ f g = Some s) ->
     exists m, In m ms /\ f m = Some s) ->
  hasNew x (truthyVals (map f ms)) = true <->
    exists s, x = Some s /\ s <> EmptyString /\ ~ exists g, In g G /\ f g = Some s.
Proof.
  intros H1 H2. rewrite hasNew_true.
  split; intros [s [Ex [Hs Hn]]]; exists s; (split; [exact Ex|]); (split; [exact Hs|]).
  - intros Hg. apply Hn. apply truthyVals_in; auto.
    destruct (H2 s Ex Hs Hg) as [m [Hm Em]]. rewrite <- Em. now apply in_map.
  - intros Hin. apply Hn. apply truthyVals_in in Hin; auto.
    apply in_map_iff in Hin as [m [Em Hm]].
    destruct (H1 m Hm) as [g [Hg Eg]]. exists g. split; congruence.
Qed.

Lemma addIfNew_eq e p ms o db :
  addIfNew e p ms o db =
    if hasNew e (truthyVals (map email ms)) || hasNew p (truthyVals (map phoneNumber ms))
    then inr (tt, mkDB (contacts db ++ [mkContact (next_id db) e p secondary (Some (id o))
                                                   (clock db) None])
                       (S (next_id db)) (clock db) (log db ++ [WCreate (next_id db)]))
    else inr (tt, db).
Proof. unfold addIfNew. destruct (_ || _); reflexivity. Qed.

(** ** Preservation of the store invariants *)

Lemma mergeEffect_cases T o c :
  (mergeEffect T o c = demoted c o /\ memIds T (id c) = true) \/
  (mergeEffect T o c = relinked c o /\ memIds T (id c) = false /\ isLive c = true /\
     exists l, linkedId c = Some l /\ memIds T l = true) \/
  (mergeEffect T o c = c /\ memIds T (id c) = false /\
     (isLive c = true -> forall l, linkedId c = Some l -> memIds T l = false)).
Proof.
  unfold mergeEffect. destruct (memIds T (id c)) eqn:Ec; [now left|right].
  destruct (isLive c) eqn:El; cbn.
  - destruct (linkedId c) as [l|] eqn:Lc.
    + destruct (memIds T l) eqn:El'.
      * left. repeat split; eauto.
      * right. repeat split; auto. intros _ l' [= <-]. exact El'.
    + right. repeat split; auto. intros _ l' [=].
  - right. repeat split; auto. intros [=].
Qed.

Lemma wf_merge db T surv L :
  wf db -> In surv (contacts db) -> linkPrecedence surv = primary -> isLive surv = true ->
  memIds T (id surv) = false ->
  wf (mkDB (map (mergeEffect T (id surv)) (contacts db)) (next_id db) (clock db) L).
Proof.
  intros [[Hids Hinv] Hll] Hs Hsp Hsl Hsm.
  set (f := mergeEffect T (id surv)).
  assert (Hsf : In surv (map f (contacts db))).
  { replace surv with (f surv) at 1; [now apply in_map|].
    apply mergeEffect_surv; auto. now apply (Hinv surv Hs). }
  assert (Hnd := ids_nodup _ Hids).
  assert (Hsurv : forall p, In p (contacts db) -> id p = id surv -> p = surv)
    by (intros p Hp E; exact (nodup_ids_eq _ _ _ Hnd Hp Hs E)).
  split; [split; [split|]|].
  - cbn. rewrite map_map. erewrite map_ext; [exact Hnd | apply mergeEffect_id].
  - intros c' Hc'. cbn in Hc'. apply in_map_iff in Hc' as [c [<- Hc]].
    unfold f. rewrite mergeEffect_id. now apply (ids_pos _ Hids).
  - intros c' Hc'. cbn in Hc'. apply in_map_iff in Hc' as [c [<- Hc]].
    unfold f. rewrite mergeEffect_id. now apply (ids_fresh _ Hids).
  - exact (next_pos _ Hids).
  - intros c' Hc'. cbn in Hc' |- *. apply in_map_iff in Hc' as [c [<- Hc]].
    destruct (Hinv c Hc) as [Hiff Hlk]. unfold f.
    destruct (mergeEffect_cases T (id surv) c)
      as [[-> _]|[[-> [_ [_ [l [Lc _]]]]]|[-> [_ Hun]]]].
    + cbn. split; [split; discriminate|]. intros _ q [= <-]. eauto.
    + cbn. split.
      * split; [intros Hp; apply Hiff in Hp; congruence | discriminate].
      * intros _ q [= <-]. eauto.
    + split; [exact Hiff|]. intros Hl q Hq.
      destruct (Hlk Hl q Hq) as [p [Hp [Hpq Hpp]]].
      exists p. split; [|auto].
      replace p with (f p); [now apply in_map|].
      unfold f, mergeEffect. rewrite Hpq, (Hun Hl q Hq).
      replace (linkedId p) with (@None nat) by (symmetry; now apply (Hinv p Hp)).
      now rewrite andb_false_r.
  - intros c' p' Hc' Hp' Hl' Hlk'. cbn in Hc', Hp'.
    apply in_map_iff in Hc' as [c [<- Hc]]. apply in_map_iff in Hp' as [p [<- Hp]].
    unfold f in *.
    destruct (mergeEffect_fields T (id surv) c) as (_ & _ & _ & Ec).
    destruct (mergeEffect_fields T (id surv) p) as (_ & _ & _ & Ep).
    rewrite Ec in Hl'. rewrite Ep.
    rewrite mergeEffect_id in Hlk'.
    destruct (mergeEffect_cases T (id surv) c)
      as [[E _]|[[E _]|[E _]]]; rewrite E in Hlk'; cbn in Hlk'.
    + injection Hlk' as Hlk'. now rewrite (Hsurv p Hp (eq_sym Hlk')).
    + injection Hlk' as Hlk'. now rewrite (Hsurv p Hp (eq_sym Hlk')).
    + exact (Hll c p Hc Hp Hl' Hlk').
Qed.

Lemma wf_create db n L :
  wf db -> id n = next_id db -> isLive n = true ->
  (linkPrecedence n = primary <-> linkedId n = None) ->
  (forall q, linkedId n = Some q -> exists p, In p (contacts db) /\ id p = q /\
     linkPrecedence p = primary /\ isLive p = true) ->
  wf (mkDB (contacts db ++ [n]) (S (next_id db)) (clock db) L).
Proof.
  intros [[Hids Hinv] Hll] Hn Hnl Hiff Hlk.
  assert (Hnot : forall c, In c (contacts db) -> id c <> id n).
  { intros c Hc E. pose proof (ids_fresh _ Hids c Hc). lia. }
  split; [split; [split|]|]; cbn.
  - rewrite map_app. apply NoDup_app; [exact (ids_nodup _ Hids) | repeat constructor; auto|].
    intros x Hx [Ex|[]]. apply in_map_iff in Hx as [c [<- Hc]]. exact (Hnot c Hc (eq_sym Ex)).
  - intros c Hc. apply in_app_or in Hc as [Hc|[<-|[]]].
    + exact (ids_pos _ Hids c Hc).
    + rewrite Hn. exact (next_pos _ Hids).
  - intros c Hc. apply in_app_or in Hc as [Hc|[<-|[]]].
    + pose proof (ids_fresh _ Hids c Hc). lia.
    + lia.
  - lia.
  - intros c Hc. apply in_app_or in Hc as [Hc|[<-|[]]].
    + destruct (Hinv c Hc) as [H1 H2]. split; [exact H1|].
      intros Hl q Hq. destruct (H2 Hl q Hq) as [p [Hp Hpq]].
      exists p. split; [apply in_or_app; now left | exact Hpq].
    + split; [exact Hiff|]. intros _ q Hq. destruct (Hlk q Hq) as [p [Hp [Hpq [Hpp _]]]].
      exists p. split; [apply in_or_app; now left | auto].
  - intros c p Hc Hp Hl Hcp.
    apply in_app_or in Hc as [Hc|[<-|[]]]; apply in_app_or in Hp as [Hp|[<-|[]]].
    + exact (Hll c p Hc Hp Hl Hcp).
    + exfalso. destruct (proj2 (Hinv c Hc) Hl _ Hcp) as [p [Hp [Hpq _]]].
      exact (Hnot p Hp Hpq).
    + destruct (Hlk _ Hcp) as [p' [Hp' [Hpq [_ Hpl]]]].
      now rewrite <- (nodup_ids_eq _ _ _ (ids_nodup _ Hids) Hp' Hp Hpq).
    + exact Hnl.
Qed.

(** ** The two branches of [identifyBody] on a well-formed store *)

Lemma nodup_memIds o T : NoDup (map id (o :: T)) -> memIds T (id o) = false.
Proof.
  intros Hnd. destruct (memIds T (id o)) eqn:E; auto.
  apply memIds_true in E as [t [Ht Et]]. inversion Hnd as [|? ? Hn _]; subst.
  exfalso. apply Hn. rewrite <- Et. now apply in_map.
Qed.

Lemma body_nomatch e p db :
  wfBase db -> lookupMatches e p db = inr ([], db) ->
  identifyBody e p db =
    inr (mkResponse (next_id db) (uniqStr (truthyVals [e])) (uniqStr (truthyVals [p])) [],
         mkDB (contacts db ++ [mkContact (next_id db) e p primary None (clock db) None])
              (S (next_id db)) (clock db) (log db ++ [WCreate (next_id db)])).
Proof.
  intros Hwf Hl.
  set (n := mkContact (next_id db) e p primary None (clock db) None).
  assert (Hf : filter (linksTo (next_id db)) (contacts db ++ [n]) = []).
  { rewrite filter_app. cbn. rewrite (no_links_to_next db Hwf). reflexivity. }
  unfold identifyBody, bind at 1. rewrite Hl. unfold bind, create. cbn.
  unfold buildResponse, bind; cbn. fold n. rewrite Hf. reflexivity.
Qed.

Lemma body_matched_wf e p db ms v db' :
  wf db -> lookupMatches e p db = inr (ms, db) -> ms <> [] ->
  identifyBody e p db = inr (v, db') ->
  exists pm surv targets,
    resolveRoots ms [] db = inr (pm, db) /\
    sortByCreatedAt (map snd pm) = surv :: targets /\
    (forall r, In r (surv :: targets) ->
       In r (contacts db) /\ linkPrecedence r = primary /\ isLive r = true) /\
    NoDup (map id (surv :: targets)) /\
    (forall m, In m ms -> exists r, In r (surv :: targets) /\ resolvesTo m r) /\
    (forall r, In r (surv :: targets) -> exists m, In m ms /\ resolvesTo m r) /\
    addIfNew e p ms surv
      (mkDB (map (mergeEffect targets (id surv)) (contacts db)) (next_id db) (clock db)
            (log db ++ mergeLog targets (id surv))) = inr (tt, db') /\
    buildResponse surv db' = inr (v, db').
Proof.
  intros Hwf Hl Hne H.
  destruct (body_matched _ _ _ _ _ _ Hl Hne H) as [o [dbm [dba [Hr [Ha Hb]]]]].
  assert (Hms : forall m, In m ms -> In m (contacts db) /\ isLive m = true).
  { intros m Hm. destruct (lookup_spec _ _ _ _ _ Hl) as [_ [Hs _]].
    destruct (Hs m Hm) as [Hc [Hlv _]]. auto. }
  destruct (merge_state _ _ _ _ Hwf Hms Hr)
    as [pm [targets (Hpm & Hs & -> & Hroots & Hnd & Hcov & Hback)]].
  pose proof (proj2 (buildResponse_id _ _ _ _ Hb)) as ->.
  exists pm, o, targets. do 7 (split; [assumption|]). assumption.
Qed.

Lemma wf_body e p db v db' :
  wf db -> identifyBody e p db = inr (v, db') -> wf db'.
Proof.
  intros Hwf H. destruct (lookup_ok e p db) as [ms Hl].
  destruct ms as [|m ms].
  - rewrite (body_nomatch e p db (proj1 Hwf) Hl) in H. injection H as _ <-.
    apply wf_create; auto; cbn; [tauto|]. intros q [=].
  - destruct (body_matched_wf _ _ _ _ _ _ Hwf Hl ltac:(discriminate) H)
      as [pm [surv [targets (_ & _ & Hroots & Hnd & _ & _ & Ha & _)]]].
    destruct (Hroots surv (or_introl eq_refl)) as (Hs & Hsp & Hsl).
    pose proof (nodup_memIds _ _ Hnd) as Hsm.
    assert (Hsn : linkedId surv = None) by (now apply (proj2 (proj1 Hwf) surv Hs)).
    assert (Hwm := wf_merge db targets surv (log db ++ mergeLog targets (id surv))
                     Hwf Hs Hsp Hsl Hsm).
    rewrite addIfNew_eq in Ha.
    destruct (_ || _); injection Ha as <-; [|exact Hwm].
    apply (wf_create (mkDB (map (mergeEffect targets (id surv)) (contacts db)) (next_id db)
                           (clock db) (log db ++ mergeLog targets (id surv)))); cbn; auto.
    + split; discriminate.
    + intros q [= <-]. exists surv. repeat split; auto.
      rewrite <- (mergeEffect_surv targets surv Hsn Hsm) at 1. now apply in_map.
Qed.

Lemma body_nomatch_eq e p db :
  lookupMatches e p db = inr ([], db) ->
  identifyBody e p db =
    buildResponse (mkContact (next_id db) e p primary None (clock db) None)
      (mkDB (contacts db ++ [mkContact (next_id db) e p primary None (clock db) None])
            (S (next_id db)) (clock db) (log db ++ [WCreate (next_id db)])).
Proof. intros Hl. unfold identifyBody, bind at 1. rewrite Hl. reflexivity. Qed.

Lemma body_matched_eq e p db ms :
  lookupMatches e p db = inr (ms, db) -> ms <> [] ->
  identifyBody e p db =
    bind (resolveAndMerge ms)
         (fun o => bind (addIfNew e p ms o) (fun _ => buildResponse o)) db.
Proof.
  intros Hl Hne. unfold identifyBody, bind at 1. rewrite Hl.
  destruct ms; [congruence | reflexivity].
Qed.

Lemma resolveAndMerge_ok db ms :
  wf db -> (forall m, In m ms -> In m (contacts db) /\ isLive m = true) -> ms <> [] ->
  exists surv dbm, resolveAndMerge ms db = inr (surv, dbm).
Proof.
  intros [Hb Hll] Hms Hne.
  assert (Hr : forall m, In m ms -> exists r,
             findRootPrimaryIn (contacts db) (rootStart m) 10 = inr r /\ In r (contacts db)).
  { intros m Hm'. destruct (Hms m Hm') as [Hc Hl].
    destruct (root_of_match db m Hb Hc Hl) as [r [E [Hrc _]]]. eauto. }
  destruct (resolveRoots_spec db ms []) as [pm (E & Hok & Hv & Hcov & _)].
  { split; [constructor | intros k v []]. }
  { intros m Hm'. destruct (Hr m Hm') as [r [E _]]. eauto. }
  assert (Hin : forall v, In v (map snd pm) -> In v (contacts db)).
  { intros v Hvin. destruct (Hv v Hvin) as [[]|[m [Hm' Ev]]].
    destruct (Hr m Hm') as [r [Er Hrc]]. congruence. }
  destruct (sortByCreatedAt (map snd pm)) as [|o rest] eqn:Hs.
  { exfalso. destruct ms as [|m ms]; [congruence|].
    destruct (Hr m (or_introl eq_refl)) as [r [Er _]].
    destruct (Hcov m r (or_introl eq_refl) Er) as [v [Hvin _]].
    pose proof (sort_perm (map snd pm)) as Hp. rewrite Hs in Hp.
    rewrite (Permutation_nil Hp) in Hvin. exact Hvin. }
  assert (Hperm : Permutation (o :: rest) (map snd pm)) by (rewrite <- Hs; apply sort_perm).
  assert (Hnd : NoDup (map id (o :: rest))).
  { apply (Permutation_NoDup (Permutation_sym (Permutation_map id Hperm))).
    now apply mapOk_nodup. }
  unfold resolveAndMerge, bind. rewrite E. cbn [sortByCreatedAt]. rewrite Hs.
  destruct (Nat.ltb 1 (length (o :: rest))).
  - rewrite mergeNewer_eq.
    + eexists; eexists; reflexivity.
    + intros t Ht. apply in_map, Hin. apply (Permutation_in _ Hperm). now right.
    + exact (nodup_memIds _ _ Hnd).
  - eexists; eexists; reflexivity.
Qed.

Lemma merged_in_group db surv targets m :
  wfBase db -> In m (contacts db) -> isLive m = true ->
  (forall r, In r (surv :: targets) -> In r (contacts db) /\ linkPrecedence r = primary) ->
  memIds targets (id surv) = false ->
  (exists r, In r (surv :: targets) /\ resolvesTo m r) ->
  In (mergeEffect targets (id surv) m)
     (groupOf (mkDB (map (mergeEffect targets (id surv)) (contacts db)) (next_id db) (clock db)
                    (log db ++ mergeLog targets (id surv))) surv).
Proof.
  intros Hb Hm Hl Hroots Hsm Hr.
  destruct (merge_links db surv targets m Hb Hm Hl Hroots Hsm Hr) as [[-> E]|Hlk].
  - rewrite E. now left.
  - right. cbn. apply filter_In. split; [now apply in_map | exact Hlk].
Qed.

(** A request whose matches all lie in the group of one primary [o], and
    which supplies nothing new to that group, writes nothing. *)
Lemma consolidated_noop e p db ms o :
  wf db -> In o (contacts db) -> linkPrecedence o = primary ->
  lookupMatches e p db = inr (ms, db) -> ms <> [] ->
  (forall m, In m ms -> m = o \/ linkedId m = Some (id o)) ->
  nothingNew e p (groupOf db o) ->
  exists v, identifyBody e p db = inr (v, db) /\ buildResponse o db = inr (v, db).
Proof.
  intros Hwf Ho Hop Hl Hne Hsingle [Hne1 Hne2].
  destruct (lookup_spec _ _ _ _ _ Hl) as [_ [Hsound Hcomp]].
  assert (Hms : forall m, In m ms -> In m (contacts db) /\ isLive m = true)
    by (intros m Hm; destruct (Hsound m Hm) as [? [? _]]; auto).
  pose proof (ids_nodup _ (proj1 (proj1 Hwf))) as Hnd.
  pose proof (proj2 (proj1 Hwf)) as Hinv.
  assert (Hol : isLive o = true).
  { destruct ms as [|m ms']; [congruence|]. destruct (Hms m (or_introl eq_refl)) as [Hm Hml].
    destruct (Hsingle m (or_introl eq_refl)) as [<-|Hlk]; [exact Hml|].
    exact (proj2 Hwf m o Hm Ho Hml Hlk). }
  destruct (resolveAndMerge_ok db ms Hwf Hms Hne) as [surv [dbm Hrm]].
  destruct (merge_state _ _ _ _ Hwf Hms Hrm)
    as [pm [targets (_ & _ & Hdbm & Hroots & Hndr & _ & Hback)]].
  assert (Hall : forall r, In r (surv :: targets) -> r = o).
  { intros r Hr. destruct (Hback r Hr) as [m [Hm Hrel]].
    destruct (Hroots r Hr) as [Hrc _]. destruct (Hms m Hm) as [Hmc _].
    destruct (Hsingle m Hm) as [->|Hlk]; destruct Hrel as [[Hp ->]|[Hp Hlk']].
    - reflexivity.
    - congruence.
    - exfalso. apply (proj1 (Hinv m Hmc)) in Hp. congruence.
    - rewrite Hlk in Hlk'. injection Hlk' as Er.
      exact (nodup_ids_eq _ _ _ Hnd Hrc Ho (eq_sym Er)). }
  assert (Es : surv = o) by (apply Hall; now left). subst surv.
  assert (Et : targets = []).
  { destruct targets as [|t T]; auto. exfalso.
    rewrite (Hall t (or_intror (or_introl eq_refl))) in Hndr.
    inversion Hndr as [|? ? Hn _]; subst. apply Hn. now left. }
  subst targets.
  assert (Ed : dbm = db).
  { rewrite Hdbm. cbn. rewrite app_nil_r.
    erewrite map_ext; [rewrite map_id|apply mergeEffect_nil]. now destruct db. }
  rewrite Ed in Hrm. clear dbm Hdbm Ed.
  assert (Hgrp : forall g, In g (groupOf db o) -> In g (contacts db) /\ isLive g = true).
  { intros g [<-|Hg]; [auto|]. apply filter_In in Hg as [Hg Hlk].
    apply linksTo_true in Hlk as [_ Hlv]. auto. }
  assert (Hcov : forall m, In m ms -> In m (groupOf db o)).
  { intros m Hm. destruct (Hsingle m Hm) as [->|Hlk]; [now left|right].
    apply filter_In. split; [apply Hms, Hm|]. apply linksTo_true. split; [exact Hlk | apply Hms, Hm]. }
  assert (He : hasNew e (truthyVals (map email ms)) = false).
  { apply not_true_is_false. intros H.
    apply (hasNew_group email (groupOf db o) ms e) in H as [s [Ex [_ Hng]]].
    - exact (Hng (Hne1 s Ex)).
    - intros m Hm. exists m. auto.
    - intros s Ex Hs [g [Hg Eg]]. exists g. split; [|exact Eg].
      destruct (Hgrp g Hg) as [Hgc Hgl]. apply Hcomp; auto. left. exists s. auto. }
  assert (Hp : hasNew p (truthyVals (map phoneNumber ms)) = false).
  { apply not_true_is_false. intros H.
    apply (hasNew_group phoneNumber (groupOf db o) ms p) in H as [s [Ex [_ Hng]]].
    - exact (Hng (Hne2 s Ex)).
    - intros m Hm. exists m. auto.
    - intros s Ex Hs [g [Hg Eg]]. exists g. split; [|exact Eg].
      destruct (Hgrp g Hg) as [Hgc Hgl]. apply Hcomp; auto. right. exists s. auto. }
  eexists. split; [|apply buildResponse_eq].
  rewrite (body_matched_eq _ _ _ _ Hl Hne). unfold bind at 1. rewrite Hrm.
  cbv beta iota. unfold bind. rewrite addIfNew_eq, He, Hp. cbn [orb].
  apply buildResponse_eq.
Qed.

Lemma hasNew_false_in x s E : x = Some s -> s <> EmptyString -> hasNew x E = false -> In s E.
Proof.
  intros -> Hs H. cbn in H. apply String.eqb_neq in Hs. rewrite Hs in H. cbn in H.
  apply negb_false_iff, memStr_in in H. exact H.
Qed.

Lemma normalized_match e p c :
  normalizedField e -> normalizedField p -> (e <> None \/ p <> None) ->
  email c = e -> phoneNumber c = p ->
  fieldMatch e (email c) \/ fieldMatch p (phoneNumber c).
Proof.
  intros He Hp Hs Ee Ep. destruct Hs as [Hs|Hs].
  - left. destruct e as [s|]; [|congruence]. exists s. auto.
  - right. destruct p as [s|]; [|congruence]. exists s. auto.
Qed.

(** A second call with the same normalized input writes nothing and
    returns the same response. *)
Lemma idempotent e p db v1 db1 :
  wf db -> normalizedField e -> normalizedField p -> (e <> None \/ p <> None) ->
  identifyBody e p db = inr (v1, db1) -> identifyBody e p db1 = inr (v1, db1).
Proof.
  intros Hwf Hne Hnp Hsome H.
  pose proof (wf_body _ _ _ _ _ Hwf H) as Hwf1.
  destruct (lookup_ok e p db) as [ms Hl].
  destruct (lookup_spec _ _ _ _ _ Hl) as [_ [Hsound Hcomp]].
  pose proof (ids_nodup _ (proj1 (proj1 Hwf))) as Hnd.
  destruct ms as [|m0 ms0].
  - rewrite (body_nomatch_eq _ _ _ Hl) in H.
    set (n := mkContact (next_id db) e p primary None (clock db) None) in H.
    pose proof (proj2 (buildResponse_id _ _ _ _ H)) as Edb. subst db1.
    destruct (lookup_ok e p (mkDB (contacts db ++ [n]) (S (next_id db)) (clock db)
                                  (log db ++ [WCreate (next_id db)]))) as [ms1 Hl1].
    destruct (lookup_spec _ _ _ _ _ Hl1) as [_ [Hsound1 Hcomp1]].
    assert (Hn : In n (contacts db ++ [n])) by (apply in_or_app; right; now left).
    assert (Hn1 : In n ms1).
    { apply Hcomp1; auto; [exact (ids_nodup _ (proj1 (proj1 Hwf1)))|].
      now apply normalized_match. }
    destruct (consolidated_noop e p _ ms1 n Hwf1 Hn eq_refl Hl1) as [v [Hb Hr]].
    + intros E. rewrite E in Hn1. contradiction.
    + intros m Hm. destruct (Hsound1 m Hm) as [Hmc [Hml Hmf]].
      apply in_app_or in Hmc as [Hmc|[<-|[]]]; [|now left].
      exfalso. exact (Hcomp Hnd m Hmc Hml Hmf).
    + split; intros s Es; exists n; (split; [now left | cbn; congruence]).
    + rewrite Hb. rewrite H in Hr. congruence.
  - set (ms := m0 :: ms0) in *.
    destruct (body_matched_wf _ _ _ _ _ _ Hwf Hl ltac:(discriminate) H)
      as [pm [surv [targets (_ & _ & Hroots & Hndr & Hcov & _ & Ha & Hb)]]].
    set (dbm := mkDB (map (mergeEffect targets (id surv)) (contacts db)) (next_id db)
                     (clock db) (log db ++ mergeLog targets (id surv))) in *.
    set (nr := mkContact (next_id dbm) e p secondary (Some (id surv)) (clock dbm) None).
    destruct (Hroots surv (or_introl eq_refl)) as (Hs & Hsp & Hsl).
    pose proof (nodup_memIds _ _ Hndr) as Hsm.
    assert (Hsn : linkedId surv = None) by (now apply (proj2 (proj1 Hwf) surv Hs)).
    assert (Hroots' : forall r, In r (surv :: targets) ->
              In r (contacts db) /\ linkPrecedence r = primary)
      by (intros r Hr; destruct (Hroots r Hr) as (? & ? & _); auto).
    rewrite addIfNew_eq in Ha. fold nr in Ha.
    assert (Hdb1 : forall c1, In c1 (contacts db1) ->
              In c1 (contacts dbm) \/ c1 = nr).
    { destruct (_ || _); injection Ha as <-; [|now left].
      intros c1 Hc1. apply in_app_or in Hc1 as [Hc1|[<-|[]]]; auto. }
    assert (Hdbm : forall c1, In c1 (contacts dbm) -> In c1 (contacts db1)).
    { destruct (_ || _); injection Ha as <-; [|auto].
      intros c1 Hc1. apply in_or_app. now left. }
    assert (Hs1 : In surv (contacts db1)).
    { apply Hdbm. cbn. rewrite <- (mergeEffect_surv targets surv Hsn Hsm) at 1.
      now apply in_map. }
    destruct (lookup_ok e p db1) as [ms1 Hl1].
    destruct (lookup_spec _ _ _ _ _ Hl1) as [_ [Hsound1 Hcomp1]].
    pose proof (ids_nodup _ (proj1 (proj1 Hwf1))) as Hnd1.
    destruct (consolidated_noop e p _ ms1 surv Hwf1 Hs1 Hsp Hl1) as [v [Hb1 Hr1]].
    + destruct (Hsound m0 (or_introl eq_refl)) as [Hmc [Hml Hmf]].
      destruct (mergeEffect_fields targets (id surv) m0) as (Ee & Ep & _ & El).
      assert (Hin : In (mergeEffect targets (id surv) m0) ms1).
      { apply Hcomp1; auto.
        - apply Hdbm. cbn. now apply in_map.
        - now rewrite El.
        - now rewrite Ee, Ep. }
      intros E. rewrite E in Hin. contradiction.
    + intros m1 Hm1. destruct (Hsound1 m1 Hm1) as [Hmc [Hml Hmf]].
      destruct (Hdb1 m1 Hmc) as [Hmc' | ->]; [|now right].
      cbn in Hmc'. apply in_map_iff in Hmc' as [c [<- Hc]].
      destruct (mergeEffect_fields targets (id surv) c) as (Ee & Ep & _ & El).
      rewrite El in Hml. rewrite Ee, Ep in Hmf.
      assert (Hcm : In c ms) by exact (Hcomp Hnd c Hc Hml Hmf).
      destruct (merge_links db surv targets c (proj1 Hwf) Hc Hml Hroots' Hsm (Hcov c Hcm))
        as [[-> E]|Hlk]; [left; exact E|].
      right. now apply linksTo_true in Hlk.
    + assert (Hgrp : forall g, In g (groupOf dbm surv) -> In g (groupOf db1 surv)).
      { intros g [<-|Hg]; [now left|right]. apply filter_In in Hg as [Hg Hlk].
        apply filter_In. split; [now apply Hdbm | exact Hlk]. }
      assert (Hnr : (hasNew e (truthyVals (map email ms)) ||
                     hasNew p (truthyVals (map phoneNumber ms))) = true ->
                    In nr (groupOf db1 surv)).
      { intros Ht. rewrite Ht in Ha. injection Ha as <-. right. apply filter_In.
        split; [apply in_or_app; right; now left | now apply linksTo_true]. }
      assert (Hold : forall (f : Contact -> option string) x s,
                x = Some s -> x <> Some EmptyString ->
                In s (truthyVals (map f ms)) ->
                (forall T o c, f (mergeEffect T o c) = f c) ->
                exists g, In g (groupOf db1 surv) /\ f g = Some s).
      { intros f x s Ex Hx Hin Hf. apply truthyVals_in in Hin; [|congruence].
        apply in_map_iff in Hin as [m [Em Hm]].
        destruct (Hsound m Hm) as [Hmc [Hml _]].
        exists (mergeEffect targets (id surv) m). split; [|now rewrite Hf].
        apply Hgrp. exact (merged_in_group db surv targets m (proj1 Hwf) Hmc Hml
                             Hroots' Hsm (Hcov m Hm)). }
      split; intros s Es.
      * destruct (hasNew e (truthyVals (map email ms))) eqn:Hh.
        -- exists nr. split; [apply Hnr; rewrite ?Hh; reflexivity | cbn; congruence].
        -- apply (Hold email e s Es).
           ++ rewrite Es in Hne. cbn in Hne. congruence.
           ++ apply (hasNew_false_in e s _ Es); [|exact Hh].
              rewrite Es in Hne. exact Hne.
           ++ intros T o c. apply mergeEffect_fields.
      * destruct (hasNew p (truthyVals (map phoneNumber ms))) eqn:Hh.
        -- exists nr. split; [apply Hnr; rewrite ?Hh; apply orb_true_r | cbn; congruence].
        -- apply (Hold phoneNumber p s Es).
           ++ rewrite Es in Hnp. cbn in Hnp. congruence.
           ++ apply (hasNew_false_in p s _ Es); [|exact Hh].
              rewrite Es in Hnp. exact Hnp.
           ++ intros T o c. apply mergeEffect_fields.
    + rewrite Hb1. rewrite Hb in Hr1. congruence.
Qed.

(** ** The response lists *)

Lemma truthyVals_present l : truthyVals l = presentValues l.
Proof.
  induction l as [|[x|] l IH]; cbn; auto.
  destruct (String.eqb x EmptyString); cbn; now rewrite IH.
Qed.

Lemma filter_comp {A} (f g : A -> bool) l :
  filter f (filter g l) = filter (fun y => g y && f y) l.
Proof.
  induction l as [|x l IH]; cbn; auto.
  destruct (g x); cbn; [destruct (f x)|]; now rewrite IH.
Qed.

Lemma setFrom_filter seen l :
  setFrom seen l = filter (fun y => negb (memStr y seen)) (dropLaterDups l).
Proof.
  revert seen; induction l as [|x l IH]; intros seen; cbn; auto.
  destruct (memStr x seen) eqn:Ex; cbn.
  - rewrite IH, filter_comp. apply filter_ext. intros y.
    destruct (String.eqb y x) eqn:Ey; cbn; auto.
    apply String.eqb_eq in Ey. subst. now rewrite Ex.
  - rewrite IH, filter_comp. f_equal. apply filter_ext. intros y.
    unfold memStr. cbn. now rewrite negb_orb.
Qed.

Lemma uniqStr_dropLaterDups l : uniqStr l = dropLaterDups l.
Proof.
  unfold uniqStr. rewrite setFrom_filter. erewrite filter_ext; [apply filter_true|].
  reflexivity.
Qed.

Lemma dropLaterDups_in l y : In y (dropLaterDups l) -> In y l.
Proof.
  induction l as [|x l IH]; cbn; auto.
  intros [->|H]; [now left|]. apply filter_In in H as [H _]. right. now apply IH.
Qed.

Lemma dropLaterDups_nodup l : NoDup (dropLaterDups l).
Proof.
  induction l as [|x l IH]; cbn; constructor.
  - intros H. apply filter_In in H as [_ H]. now rewrite String.eqb_refl in H.
  - now apply NoDup_filter.
Qed.

Lemma presentValues_nonempty l : ~ In EmptyString (presentValues l).
Proof.
  induction l as [|[x|] l IH]; cbn; auto.
  destruct (String.eqb x EmptyString) eqn:E; cbn; auto.
  intros [H|H]; [subst; now rewrite String.eqb_refl in E | auto].
Qed.

(** Every successful body ends in [buildResponse] of some record. *)
Lemma body_response e p db v db' :
  identifyBody e p db = inr (v, db') -> exists prim, buildResponse prim db' = inr (v, db').
Proof.
  intros H. destruct (lookup_ok e p db) as [[|m ms] Hl].
  - rewrite (body_nomatch_eq _ _ _ Hl) in H.
    pose proof (proj2 (buildResponse_id _ _ _ _ H)) as E. subst db'. eauto.
  - destruct (body_matched _ _ _ _ _ _ Hl ltac:(discriminate) H)
      as [o [dbm [dba [_ [_ Hb]]]]].
    pose proof (proj2 (buildResponse_id _ _ _ _ Hb)) as E. rewrite <- E in Hb. eauto.
Qed.

Lemma addIfNew_keep e p ms o dbm dba :
  addIfNew e p ms o dbm = inr (tt, dba) ->
  (forall x, In x (contacts dbm) -> In x (contacts dba)) /\
  exists rest, log dba = log dbm ++ rest /\ (rest = [] \/ rest = [WCreate (next_id dbm)]).
Proof.
  rewrite addIfNew_eq. destruct (_ || _); intros H; injection H as <-; cbn.
  - split; [intros x Hx; apply in_or_app; now left|]. eauto.
  - split; auto. exists []. split; [now rewrite app_nil_r | now left].
Qed.

(** Against the merged group, the test of [addIfNew] is exactly [suppliesNew]. *)
Lemma new_field_iff e p db ms surv targets :
  wf db -> normalizedField e -> normalizedField p -> lookupMatches e p db = inr (ms, db) ->
  (forall r, In r (surv :: targets) ->
     In r (contacts db) /\ linkPrecedence r = primary /\ isLive r = true) ->
  NoDup (map id (surv :: targets)) ->
  (forall m, In m ms -> exists r, In r (surv :: targets) /\ resolvesTo m r) ->
  (hasNew e (truthyVals (map email ms)) || hasNew p (truthyVals (map phoneNumber ms))) = true <->
  suppliesNew e p
    (groupOf (mkDB (map (mergeEffect targets (id surv)) (contacts db)) (next_id db) (clock db)
                   (log db ++ mergeLog targets (id surv))) surv).
Proof.
  intros Hwf Hne Hnp Hl Hroots Hndr Hcov.
  set (G := groupOf _ surv).
  destruct (lookup_spec _ _ _ _ _ Hl) as [_ [Hsound Hcomp]].
  pose proof (ids_nodup _ (proj1 (proj1 Hwf))) as Hnd.
  destruct (Hroots surv (or_introl eq_refl)) as (Hs & _ & Hsl).
  assert (Hroots' : forall r, In r (surv :: targets) ->
            In r (contacts db) /\ linkPrecedence r = primary)
    by (intros r Hr; destruct (Hroots r Hr) as (? & ? & _); auto).
  pose proof (nodup_memIds _ _ Hndr) as Hsm.
  assert (H1 : forall f : Contact -> option string,
            (forall T o c, f (mergeEffect T o c) = f c) ->
            forall m, In m ms -> exists g, In g G /\ f g = f m).
  { intros f Hf m Hm. destruct (Hsound m Hm) as [Hmc [Hml _]].
    exists (mergeEffect targets (id surv) m). split; [|apply Hf].
    exact (merged_in_group db surv targets m (proj1 Hwf) Hmc Hml Hroots' Hsm (Hcov m Hm)). }
  rewrite orb_true_iff.
  rewrite (hasNew_group email G ms e); [rewrite (hasNew_group phoneNumber G ms p)| |].
  - unfold suppliesNew. split.
    + intros [[s [Es [_ Hn]]]|[s [Es [_ Hn]]]]; [left|right]; eauto.
    + intros [[s [Es Hn]]|[s [Es Hn]]]; [left|right]; exists s; (split; [exact Es|]);
        (split; [|exact Hn]); subst; assumption.
  - apply H1. intros; apply mergeEffect_fields.
  - intros s Es Hs0 [g [Hg Eg]].
    destruct (group_members db targets surv g Hs Hsl Hg) as [c (Hc & Hcl & _ & Ep)].
    exists c. split; [|congruence]. apply Hcomp; auto. right. exists s. split; auto.
    split; congruence.
  - apply H1. intros; apply mergeEffect_fields.
  - intros s Es Hs0 [g [Hg Eg]].
    destruct (group_members db targets surv g Hs Hsl Hg) as [c (Hc & Hcl & Ee & _)].
    exists c. split; [|congruence]. apply Hcomp; auto. left. exists s. split; auto.
    split; congruence.
Qed.

(** ** Concrete stores are well formed *)

Lemma wf_dbTwoGroups : wf dbTwoGroups.
Proof.
  split; [split; [split|]|].
  - cbn. repeat constructor; cbn; intuition discriminate.
  - intros c Hc; cbn in Hc. repeat destruct Hc as [<-|Hc]; cbn; try lia; contradiction.
  - intros c Hc; cbn in Hc. repeat destruct Hc as [<-|Hc]; cbn; try lia; contradiction.
  - cbn; lia.
  - intros c Hc; cbn in Hc.
    repeat destruct Hc as [<-|Hc]; try contradiction; cbn;
      (split; [split; congruence|]); intros _ q Hq; try discriminate;
      injection Hq as <-.
    + exists (mkC 1 "a@x.edu" "111" primary None 0 None). split; [cbn; auto | auto].
    + exists (mkC 2 "b@x.edu" "222" primary None 1 None). split; [cbn; auto | auto].
  - intros c p _ Hp _ _. cbn in Hp.
    repeat destruct Hp as [<-|Hp]; try contradiction; reflexivity.
Qed.

(** * Claims *)

(** ** C9 *)

(** C9 (corrected): [identifyContact] runs its transaction between one and
    three times; every execution but the last failed with a retryable
    (P2034 / 40001) error; the result is the last execution's outcome,
    unmodified; an execution that stops the loop early failed, if at all,
    with a non-retryable error.  After three conflicts the third conflict
    itself is rethrown: 'Max retries reached' is never produced. *)
Theorem C9_withRetry_attempts snapshot storeAbort e p :
  let '(r, n) := identifyContact snapshot storeAbort e p in
  1 <= n <= 3 /\ r = attempt snapshot storeAbort e p (n - 1) /\
  (forall i, i < n - 1 -> exists err,
      attempt snapshot storeAbort e p i = inl err /\ isRetryable err = true) /\
  (n < 3 -> forall err, r = inl err -> isRetryable err = false).
Proof. apply withRetry_3. Qed.

(** C9 counterexample: three serialization conflicts in a row surface the
    third P2034 conflict itself, not an exhaustion error. *)
Lemma C9_exhausted_rethrows_conflict :
  identifyContact (fun _ => emptyDB) (fun _ => Some conflictP2034) None None
    = (inl conflictP2034, 3) /\
  fst (identifyContact (fun _ => emptyDB) (fun _ => Some conflictP2034) None None)
    <> inl MaxRetriesReached.
Proof. split; [reflexivity | cbn; discriminate]. Qed.

(** ** C8 *)

(** C8: [findRootPrimary] (bound 10) is a total function that returns a
    record reached in at most 10 hops along [linkedId], raises
    [CircularLink] on any chain of more than 10 hops, and a [CircularLink]
    raised by any execution of the transaction body, the first or one
    after a retried conflict, is never retried: that execution is the last
    one and its error is what [identifyContact] returns. *)
Theorem C8_findRootPrimary_bounded :
  (forall cs i, chainDeeper cs 11 (findUniqueIn cs i) = true ->
     findRootPrimaryIn cs i 10 = inl (CircularLink i)) /\
  (forall cs i c, findRootPrimaryIn cs i 10 = inr c ->
     exists k, k <= 10 /\ nthHop cs k (findUniqueIn cs i) = Some c) /\
  (forall snapshot storeAbort e p r n i x,
     identifyContact snapshot storeAbort e p = (r, n) -> i < n ->
     attempt snapshot storeAbort e p i = inl (CircularLink x) ->
     n = S i /\ r = inl (CircularLink x)).
Proof.
  split; [|split].
  - intros cs i H. now apply followLinks_deep.
  - intros cs i c H. now apply followLinks_hops in H.
  - intros snapshot storeAbort e p r n i x Hic Hi Hc.
    pose proof (withRetry_3 (attempt snapshot storeAbort e p)) as W.
    unfold identifyContact in Hic. rewrite Hic in W. hnf in W.
    destruct W as (Hn & Hr & Hret & _).
    destruct (Nat.eq_dec i (n - 1)) as [->|Hne].
    + split; [lia | now rewrite Hr].
    + destruct (Hret i ltac:(lia)) as [err [Herr Hrt]].
      rewrite Hc in Herr. injection Herr as <-. discriminate.
Qed.

Lemma C8_witness :
  chainDeeper (contacts dbCycle) 11 (findUniqueIn (contacts dbCycle) 1) = true /\
  findRootPrimaryIn (contacts dbCycle) 1 10 = inl (CircularLink 1) /\
  identifyContact (fun _ => dbCycle)
    (fun i => match i with 0 => Some conflictP2034 | S _ => None end)
    (Some "a@x.edu"%string) None = (inl (CircularLink 2), 2) /\
  (2 = S 1 /\ @inl Error (IdentifyResponse * DB) (CircularLink 2) = inl (CircularLink 2)).
Proof.
  split; [vm_compute; reflexivity|]. split; [|split].
  - apply (proj1 C8_findRootPrimary_bounded). vm_compute. reflexivity.
  - vm_compute. reflexivity.
  - apply (proj2 (proj2 C8_findRootPrimary_bounded) (fun _ => dbCycle)
             (fun i => match i with 0 => Some conflictP2034 | S _ => None end)
             (Some "a@x.edu"%string) None (inl (CircularLink 2)) 2 1 2).
    + vm_compute. reflexivity.
    + lia.
    + vm_compute. reflexivity.
Defined.

(** ** C10 *)

(** C10 counterexample: with both fields null, the call succeeds and writes
    a new row. *)
Lemma C10_both_null_creates_row :
  exists v db', identifyContact (fun _ => emptyDB) (fun _ => None) None None
                  = (inr (v, db'), 1) /\ log db' = [WCreate 1].
Proof. eexists; eexists; split; [compute; reflexivity | reflexivity]. Qed.

(** C10 (corrected): with both fields null the engine does not fail: no
    lookup runs, the request is a no-match, and a new primary row with null
    email and phone is created and returned with empty emails, phone
    numbers and secondary ids. *)
Theorem C10_both_null_new_primary db (Hwf : wfBase db) :
  identifyBody None None db =
    inr (mkResponse (next_id db) [] [] [],
         mkDB (contacts db ++ [mkContact (next_id db) None None primary None (clock db) None])
              (S (next_id db)) (clock db) (log db ++ [WCreate (next_id db)])).
Proof.
  set (n := mkContact (next_id db) None None primary None (clock db) None).
  assert (Hf : filter (linksTo (next_id db)) (contacts db ++ [n]) = []).
  { rewrite filter_app. cbn. rewrite (no_links_to_next db Hwf). reflexivity. }
  unfold identifyBody, bind; cbn. unfold buildResponse, bind; cbn.
  fold n. rewrite Hf. reflexivity.
Qed.

Lemma C10_witness :
  wfBase emptyDB /\
  identifyBody None None emptyDB =
    inr (mkResponse 1 [] [] [], mkDB [mkContact 1 None None primary None 0 None] 2 0 [WCreate 1]).
Proof.
  assert (H : wfBase emptyDB).
  { split; [split; cbn; [constructor | tauto | tauto | lia] | intros c []]. }
  split; [exact H | exact (C10_both_null_new_primary emptyDB H)].
Defined.

(** ** C2 *)

(** C2 counterexample: primaries 1 and 2 share [createdAt]; matching 2 by
    email and 1 by phone makes 2, not 1, the surviving primary. *)
Lemma C2_tie_not_by_id :
  exists v db',
    identifyBody (Some "b@x.edu"%string) (Some "111"%string) dbTie = inr (v, db') /\
    primaryContatctId v = 2 /\ primaryContatctId v <> 1.
Proof. eexists; eexists; split; [compute; reflexivity | split; [reflexivity | discriminate]]. Qed.

(** ** C7 *)

(** C7 counterexample: a soft-deleted secondary of a demoted primary keeps
    pointing at it, so the store is no longer flat. *)
Lemma C7_deleted_secondary_chain :
  linkInvAll (contacts dbDeletedSecondary) /\
  exists v db',
    identifyBody (Some "a@x.edu"%string) (Some "222"%string) dbDeletedSecondary
      = inr (v, db') /\ ~ linkInvAll (contacts db').
Proof.
  split.
  - intros c Hc; cbn in Hc.
    repeat destruct Hc as [<-|Hc]; try contradiction; cbn;
      (split; [split; congruence|]); intros q Hq; try discriminate.
    injection Hq as <-.
    exists (mkC 2 "b@x.edu" "222" primary None 1 None). cbn; tauto.
  - eexists; eexists; split; [compute; reflexivity|].
    intros H. cbn in H.
    destruct (H (mkC 3 "c@x.edu" "333" secondary (Some 2) 2 (Some 3%Z)))
      as [_ H3]; [cbn; tauto|].
    destruct (H3 2 eq_refl) as [p [Hp [Hid Hpr]]].
    repeat destruct Hp as [<-|Hp]; cbn in *; try discriminate; contradiction.
Qed.

(** C2 (corrected): when matches exist, the surviving primary is, among the
    distinct root primaries in the order they were first reached from the
    matches, the first one of minimal [createdAt]: roots before it are
    strictly newer, roots after it are not older.  Ties are not broken by id. *)
Theorem C2_surviving_primary e p db ms v db' :
  lookupMatches e p db = inr (ms, db) -> ms <> [] ->
  identifyBody e p db = inr (v, db') ->
  exists pm pre o post,
    resolveRoots ms [] db = inr (pm, db) /\
    map snd pm = pre ++ o :: post /\
    primaryContatctId v = id o /\
    Forall (fun r => (createdAt o < createdAt r)%Z) pre /\
    Forall (fun r => (createdAt o <= createdAt r)%Z) post.
Proof.
  intros Hl Hne H.
  destruct (body_matched _ _ _ _ _ _ Hl Hne H) as [o [dbm [dba [Hr [_ Hb]]]]].
  destruct (resolveAndMerge_inv _ _ _ _ Hr) as [pm [rest [Hpm [Hs _]]]].
  destruct (sort_head (map snd pm)) as [pre [o' [post [rest' [El [Es [Hpre Hpost]]]]]]].
  { intros E. rewrite E in Hs. discriminate. }
  rewrite Es in Hs. injection Hs as <- _.
  exists pm, pre, o', post. repeat split; auto.
  apply (buildResponse_id _ _ _ _ Hb).
Qed.

Lemma C2_witness :
  lookupMatches (Some "b@x.edu"%string) (Some "111"%string) dbTie
    = inr ([mkC 2 "b@x.edu" "222" primary None 0 None;
            mkC 1 "a@x.edu" "111" primary None 0 None], dbTie) /\
  exists pm pre o post,
    resolveRoots [mkC 2 "b@x.edu" "222" primary None 0 None;
                  mkC 1 "a@x.edu" "111" primary None 0 None] [] dbTie = inr (pm, dbTie) /\
    map snd pm = pre ++ o :: post /\ primaryContatctId
      (mkResponse 2 ["b@x.edu"; "a@x.edu"] ["222"; "111"] [1])%string = id o /\
    Forall (fun r => (createdAt o < createdAt r)%Z) pre /\
    Forall (fun r => (createdAt o <= createdAt r)%Z) post.
Proof.
  split; [reflexivity|].
  eapply (C2_surviving_primary (Some "b@x.edu"%string) (Some "111"%string) dbTie);
    [reflexivity | discriminate | compute; reflexivity].
Defined.

(** ** C1 *)

(** C1: on a well-formed store, when the matches resolve to the surviving
    primary [surv] and at least one other root primary (the targets, in
    ascending [createdAt] order), the writes are, for each target in that
    order, the bulk re-link of its non-deleted secondaries to [surv]
    followed by its own demotion, possibly followed by one [create]; each
    target ends up secondary under [surv]; every non-deleted record linked
    to a target is re-linked to [surv]; the response's primary id is
    [surv]'s and its secondary ids include every target. *)
Theorem C1_merge_into_oldest e p db ms pm surv targets v db' :
  wf db ->
  lookupMatches e p db = inr (ms, db) ->
  resolveRoots ms [] db = inr (pm, db) ->
  sortByCreatedAt (map snd pm) = surv :: targets ->
  targets <> [] ->
  identifyBody e p db = inr (v, db') ->
  Sorted createdLe (surv :: targets) /\
  (exists rest, log db' = log db ++ mergeLog targets (id surv) ++ rest /\
                (rest = [] \/ rest = [WCreate (next_id db)])) /\
  (forall t, In t targets ->
     In t (contacts db) /\ linkPrecedence t = primary /\
     In (demoted t (id surv)) (contacts db')) /\
  (forall c t, In c (contacts db) -> isLive c = true -> In t targets ->
     linkedId c = Some (id t) -> In (relinked c (id surv)) (contacts db')) /\
  primaryContatctId v = id surv /\
  (forall t, In t targets -> In (id t) (secondaryContactIds v)).
Proof.
  intros Hwf Hl Hpm Hs Ht H.
  assert (Hne : ms <> []).
  { intros ->. cbn in Hpm. unfold ret in Hpm. injection Hpm as <-. discriminate. }
  destruct (body_matched_wf _ _ _ _ _ _ Hwf Hl Hne H)
    as [pm' [surv' [targets' (Hpm' & Hs' & Hroots & Hndr & _ & _ & Ha & Hb)]]].
  rewrite Hpm in Hpm'. injection Hpm' as <-. rewrite Hs in Hs'. injection Hs' as <- <-.
  destruct (addIfNew_keep _ _ _ _ _ _ Ha) as [Hkeep [rest [Hlog Hrest]]].
  pose proof (ids_nodup _ (proj1 (proj1 Hwf))) as Hnd.
  assert (Hdem : forall t, In t targets -> In (demoted t (id surv)) (contacts db')).
  { intros t Htin. apply Hkeep. cbn.
    replace (demoted t (id surv)) with (mergeEffect targets (id surv) t);
      [now apply in_map, Hroots; right|].
    unfold mergeEffect. replace (memIds targets (id t)) with true; [reflexivity|].
    symmetry. apply memIds_true. eauto. }
  split; [rewrite <- Hs; apply sort_sorted|].
  split; [exists rest; rewrite Hlog; cbn; now rewrite <- app_assoc|].
  split; [intros t Htin; destruct (Hroots t (or_intror Htin)) as (? & ? & _); auto|].
  split.
  - intros c t Hc Hcl Htin Hlk. apply Hkeep. cbn.
    replace (relinked c (id surv)) with (mergeEffect targets (id surv) c); [now apply in_map|].
    assert (Hcs : memIds targets (id c) = false).
    { destruct (memIds targets (id c)) eqn:E; auto.
      apply memIds_true in E as [t' [Ht' Et']].
      destruct (Hroots t' (or_intror Ht')) as (Htc & Htp & _).
      rewrite (nodup_ids_eq _ _ _ Hnd Htc Hc Et') in Htp.
      apply (proj2 (proj1 Hwf) c Hc) in Htp. congruence. }
    unfold mergeEffect. rewrite Hcs, Hcl, Hlk. cbn.
    replace (memIds targets (id t)) with true; [reflexivity|].
    symmetry. apply memIds_true. eauto.
  - split; [exact (proj1 (buildResponse_id _ _ _ _ Hb))|].
    intros t Htin. rewrite buildResponse_eq in Hb. injection Hb as <-. cbn.
    apply in_map_iff. exists (demoted t (id surv)). split; [reflexivity|].
    apply (Permutation_in _ (Permutation_sym (sort_perm _))).
    apply filter_In. split; [exact (Hdem t Htin)|].
    apply linksTo_true. split; [reflexivity|].
    destruct (Hroots t (or_intror Htin)) as (_ & _ & Htl). exact Htl.
Qed.

Lemma C1_witness :
  exists v db',
    identifyBody (Some "a@x.edu"%string) (Some "222"%string) dbTwoGroups = inr (v, db') /\
    Sorted createdLe [mkC 1 "a@x.edu" "111" primary None 0 None;
                      mkC 2 "b@x.edu" "222" primary None 1 None] /\
    (exists rest, log db' = log dbTwoGroups ++ mergeLog [mkC 2 "b@x.edu" "222" primary None 1 None] 1
                              ++ rest /\ (rest = [] \/ rest = [WCreate (next_id dbTwoGroups)])) /\
    (forall t, In t [mkC 2 "b@x.edu" "222" primary None 1 None] ->
       In t (contacts dbTwoGroups) /\ linkPrecedence t = primary /\
       In (demoted t 1) (contacts db')) /\
    (forall c t, In c (contacts dbTwoGroups) -> isLive c = true ->
       In t [mkC 2 "b@x.edu" "222" primary None 1 None] ->
       linkedId c = Some (id t) -> In (relinked c 1) (contacts db')) /\
    primaryContatctId v = 1 /\
    (forall t, In t [mkC 2 "b@x.edu" "222" primary None 1 None] ->
       In (id t) (secondaryContactIds v)).
Proof.
  eexists; eexists; split; [compute; reflexivity|].
  apply (C1_merge_into_oldest (Some "a@x.edu"%string) (Some "222"%string) dbTwoGroups
           [mkC 1 "a@x.edu" "111" primary None 0 None;
            mkC 2 "b@x.edu" "222" primary None 1 None;
            mkC 4 "d@x.edu" "222" secondary (Some 2) 3 None]
           [(1, mkC 1 "a@x.edu" "111" primary None 0 None);
            (2, mkC 2 "b@x.edu" "222" primary None 1 None)]).
  - exact wf_dbTwoGroups.
  - vm_compute. reflexivity.
  - vm_compute. reflexivity.
  - vm_compute. reflexivity.
  - discriminate.
  - vm_compute. reflexivity.
Defined.

(** ** C3 *)

(** C3: on a well-formed store and normalized input with matches, let
    [surv] be the surviving primary and [dbm] the store after the merge.
    If the input supplies an email or a phone absent from [surv] and its
    non-deleted secondaries in [dbm], exactly one row is created, carrying
    the given email and phone, secondary, linked to [surv]; otherwise the
    store is left as the merge left it. *)
Theorem C3_new_record_iff_new_field e p db ms surv dbm v db' :
  wf db -> normalizedField e -> normalizedField p ->
  lookupMatches e p db = inr (ms, db) -> ms <> [] ->
  resolveAndMerge ms db = inr (surv, dbm) ->
  identifyBody e p db = inr (v, db') ->
  (suppliesNew e p (groupOf dbm surv) ->
     db' = mkDB (contacts dbm ++ [mkContact (next_id dbm) e p secondary (Some (id surv))
                                            (clock dbm) None])
                (S (next_id dbm)) (clock dbm) (log dbm ++ [WCreate (next_id dbm)])) /\
  (~ suppliesNew e p (groupOf dbm surv) -> db' = dbm).
Proof.
  intros Hwf Hne Hnp Hl Hms Hrm H.
  destruct (body_matched _ _ _ _ _ _ Hl Hms H) as [o [dbm' [dba [Hr [Ha Hb]]]]].
  rewrite Hrm in Hr. injection Hr as <- <-.
  pose proof (proj2 (buildResponse_id _ _ _ _ Hb)) as ->.
  assert (Hin : forall m, In m ms -> In m (contacts db) /\ isLive m = true).
  { intros m Hm. destruct (lookup_spec _ _ _ _ _ Hl) as [_ [Hs _]].
    destruct (Hs m Hm) as [Hc [Hlv _]]. auto. }
  destruct (merge_state _ _ _ _ Hwf Hin Hrm)
    as [pm [targets (_ & _ & Hdbm & Hroots & Hndr & Hcov & _)]].
  pose proof (new_field_iff e p db ms surv targets Hwf Hne Hnp Hl Hroots Hndr Hcov) as Hiff.
  rewrite <- Hdbm in Hiff.
  rewrite addIfNew_eq in Ha.
  destruct (_ || _) eqn:Hh; injection Ha as <-; split; auto.
  - intros Hn. exfalso. apply Hn, Hiff. reflexivity.
  - intros Hsn. apply Hiff in Hsn. discriminate.
Qed.

Lemma C3_witness :
  exists v db',
    identifyBody (Some "z@x.edu"%string) (Some "111"%string) dbTwoGroups = inr (v, db') /\
    (suppliesNew (Some "z@x.edu"%string) (Some "111"%string)
       (groupOf dbTwoGroups (mkC 1 "a@x.edu" "111" primary None 0 None)) ->
     db' = mkDB (contacts dbTwoGroups ++
                   [mkContact 5 (Some "z@x.edu"%string) (Some "111"%string) secondary (Some 1) 6 None])
                6 6 (log dbTwoGroups ++ [WCreate 5])) /\
    (~ suppliesNew (Some "z@x.edu"%string) (Some "111"%string)
         (groupOf dbTwoGroups (mkC 1 "a@x.edu" "111" primary None 0 None)) ->
     db' = dbTwoGroups).
Proof.
  eexists; eexists; split; [compute; reflexivity|].
  eapply (C3_new_record_iff_new_field (Some "z@x.edu"%string) (Some "111"%string) dbTwoGroups
           [mkC 1 "a@x.edu" "111" primary None 0 None;
            mkC 3 "c@x.edu" "111" secondary (Some 1) 2 None]).
  - exact wf_dbTwoGroups.
  - cbn. discriminate.
  - cbn. discriminate.
  - vm_compute. reflexivity.
  - discriminate.
  - vm_compute. reflexivity.
  - compute. reflexivity.
Defined.

(** ** C4 *)

(** C4: on a store with unique ids below the sequence and flat live links,
    a normalized input that no non-deleted record matches creates exactly
    one row, primary, with the given email and phone, and returns it with
    the present input fields as emails and phone numbers and no secondary. *)
Theorem C4_no_match_new_primary e p db :
  wfBase db -> normalizedField e -> normalizedField p ->
  (forall c, In c (contacts db) -> isLive c = true ->
     ~ fieldMatch e (email c) /\ ~ fieldMatch p (phoneNumber c)) ->
  identifyBody e p db =
    inr (mkResponse (next_id db) (optList e) (optList p) [],
         mkDB (contacts db ++ [mkContact (next_id db) e p primary None (clock db) None])
              (S (next_id db)) (clock db) (log db ++ [WCreate (next_id db)])).
Proof.
  intros Hwf He Hp Hno.
  destruct (lookup_ok e p db) as [ms Hl].
  destruct (lookup_spec _ _ _ _ _ Hl) as [_ [Hsound _]].
  destruct ms as [|m ms].
  2:{ exfalso. destruct (Hsound m (or_introl eq_refl)) as [Hc [Hlv Hf]].
      destruct (Hno m Hc Hlv). tauto. }
  rewrite (body_nomatch e p db Hwf Hl).
  assert (Hopt : forall x, normalizedField x -> uniqStr (truthyVals [x]) = optList x).
  { intros [s|] Hs; cbn; [|reflexivity]. apply String.eqb_neq in Hs. now rewrite Hs. }
  now rewrite !Hopt.
Qed.

Lemma C4_witness :
  identifyBody (Some "n@x.edu"%string) (Some "999"%string) dbTwoGroups =
    inr (mkResponse 5 ["n@x.edu"%string] ["999"%string] [],
         mkDB (contacts dbTwoGroups ++
                 [mkContact 5 (Some "n@x.edu"%string) (Some "999"%string) primary None 6 None])
              6 6 (log dbTwoGroups ++ [WCreate 5])).
Proof.
  apply (C4_no_match_new_primary (Some "n@x.edu"%string) (Some "999"%string) dbTwoGroups).
  - exact (proj1 wf_dbTwoGroups).
  - cbn. discriminate.
  - cbn. discriminate.
  - intros c Hc _. cbn in Hc.
    repeat destruct Hc as [<-|Hc]; try contradiction;
      split; intros [s [[= <-] [_ E]]]; discriminate.
Defined.

(** ** C5 *)

(** C5: on a well-formed store, a second call with the same normalized
    input (at least one field present) returns the same response and leaves
    the store, write log included, unchanged; more generally, a request
    whose matches are all a primary [o] or records linked to [o], and which
    supplies nothing absent from [o] and its non-deleted secondaries, writes
    nothing and returns the response for [o]. *)
Theorem C5_repeat_writes_nothing :
  (forall e p db v1 db1,
     wf db -> normalizedField e -> normalizedField p -> (e <> None \/ p <> None) ->
     identifyBody e p db = inr (v1, db1) -> identifyBody e p db1 = inr (v1, db1)) /\
  (forall e p db ms o,
     wf db -> In o (contacts db) -> linkPrecedence o = primary ->
     lookupMatches e p db = inr (ms, db) -> ms <> [] ->
     (forall m, In m ms -> m = o \/ linkedId m = Some (id o)) ->
     nothingNew e p (groupOf db o) ->
     exists v, identifyBody e p db = inr (v, db) /\ buildResponse o db = inr (v, db)).
Proof. split; [exact idempotent | exact consolidated_noop]. Qed.

Lemma C5_witness :
  (exists v1 db1,
     identifyBody (Some "z@x.edu"%string) (Some "111"%string) dbTwoGroups = inr (v1, db1) /\
     identifyBody (Some "z@x.edu"%string) (Some "111"%string) db1 = inr (v1, db1)) /\
  (exists v,
     identifyBody (Some "a@x.edu"%string) (Some "111"%string) dbTwoGroups = inr (v, dbTwoGroups) /\
     buildResponse (mkC 1 "a@x.edu" "111" primary None 0 None) dbTwoGroups = inr (v, dbTwoGroups)).
Proof.
  split.
  - eexists; eexists; split; [compute; reflexivity|].
    apply (proj1 C5_repeat_writes_nothing (Some "z@x.edu"%string) (Some "111"%string) dbTwoGroups).
    + exact wf_dbTwoGroups.
    + cbn. discriminate.
    + cbn. discriminate.
    + left. discriminate.
    + vm_compute. reflexivity.
  - apply (proj2 C5_repeat_writes_nothing (Some "a@x.edu"%string) (Some "111"%string) dbTwoGroups
             [mkC 1 "a@x.edu" "111" primary None 0 None;
              mkC 3 "c@x.edu" "111" secondary (Some 1) 2 None]).
    + exact wf_dbTwoGroups.
    + cbn. now left.
    + reflexivity.
    + vm_compute. reflexivity.
    + discriminate.
    + intros m [<-|[<-|[]]]; [left|right]; reflexivity.
    + split; intros s [= <-]; exists (mkC 1 "a@x.edu" "111" primary None 0 None);
        (split; [now left | reflexivity]).
Defined.

(** ** C7 (amended) *)

(** C7 (corrected): if every snapshot the transaction may run on has
    unique positive ids below the sequence, [primary] exactly for rows
    without [linkedId], every non-deleted row's [linkedId] naming an
    existing primary, and non-deleted rows linked only to non-deleted rows,
    then the store committed by a successful call has the same properties.
    Flatness is kept for non-deleted rows only. *)
Theorem C7_invariants_preserved snapshot storeAbort e p v db' n :
  (forall i, wf (snapshot i)) ->
  identifyContact snapshot storeAbort e p = (inr (v, db'), n) ->
  wf db'.
Proof.
  intros Hwf H.
  pose proof (withRetry_3 (attempt snapshot storeAbort e p)) as W.
  unfold identifyContact in H. rewrite H in W. destruct W as (_ & Hr & _).
  unfold attempt in Hr. destruct (storeAbort (n - 1)); [discriminate|].
  exact (wf_body e p (snapshot (n - 1)) v db' (Hwf (n - 1)) (eq_sym Hr)).
Qed.

Lemma C7_witness :
  exists v db',
    identifyContact (fun _ => dbTwoGroups) (fun _ => None)
      (Some "a@x.edu"%string) (Some "222"%string) = (inr (v, db'), 1) /\
    wf db'.
Proof.
  eexists; eexists; split; [compute; reflexivity|].
  eapply (C7_invariants_preserved (fun _ => dbTwoGroups) (fun _ => None)
            (Some "a@x.edu"%string) (Some "222"%string)).
  - intros _. exact wf_dbTwoGroups.
  - compute. reflexivity.
Defined.

(** * Further properties of the code *)

(** ** String normalisation *)

Lemma dropSpaces_idem l : dropSpaces (dropSpaces l) = dropSpaces l.
Proof.
  induction l as [|a l IH]; cbn; auto.
  destruct (isJsSpace a) eqn:E; auto. cbn. now rewrite E.
Qed.

Lemma dropSpaces_length l : length (dropSpaces l) <= length l.
Proof. induction l as [|a l IH]; cbn; auto. destruct (isJsSpace a); cbn; lia. Qed.

Lemma dropSpaces_fixed l :
  dropSpaces l = l -> l = [] \/ exists a l', l = a :: l' /\ isJsSpace a = false.
Proof.
  destruct l as [|a l]; auto. cbn. destruct (isJsSpace a) eqn:E; eauto.
  intros H. pose proof (dropSpaces_length l) as Hl. rewrite H in Hl. cbn in Hl. lia.
Qed.

Lemma dropSpaces_snoc m a :
  isJsSpace a = false -> exists z, dropSpaces (m ++ [a]) = z ++ [a].
Proof.
  intros Ha. induction m as [|b m IH]; cbn.
  - rewrite Ha. now exists [].
  - destruct (isJsSpace b); auto. now exists (b :: m).
Qed.

Lemma trimEnd_front l :
  dropSpaces l = l -> dropSpaces (rev (dropSpaces (rev l))) = rev (dropSpaces (rev l)).
Proof.
  intros H. destruct (dropSpaces_fixed l H) as [->|[a [l' [-> Ha]]]]; [reflexivity|].
  cbn. destruct (dropSpaces_snoc (rev l') a Ha) as [z ->].
  rewrite rev_app_distr. cbn. now rewrite Ha.
Qed.

Lemma trim_trimmed s : trimmedStr (trim s).
Proof.
  unfold trimmedStr, trim. split.
  - apply trimEnd_front, dropSpaces_idem.
  - rewrite rev_involutive. apply dropSpaces_idem.
Qed.

Lemma emptyToNull_cases s :
  emptyToNull s = None /\ s = [] \/ emptyToNull s = Some s /\ s <> [].
Proof. destruct s; [left | right]; split; (reflexivity || discriminate). Qed.

(** ** Request validation *)

Section Validation.
Context {number : Type} (toStr : number -> jsstr) (lower : jsstr -> jsstr).

Lemma normEmail_none (em : option (JVal number)) :
  normEmail lower em = None <-> exists v, em = Some v /\ v <> JNull /\ forall s, v <> JStr s.
Proof.
  destruct em as [[|b|n|s|l|f]|]; cbn; split; intros H; try discriminate;
    try (eexists; split; [reflexivity | split; [discriminate | intros ? [=]]]);
    destruct H as [v [[= <-] [Hn Hs]]]; try congruence; now destruct (Hs s).
Qed.

Lemma normEmail_absent (em : option (JVal number)) :
  normEmail lower em = Some None <->
  em = None \/ em = Some JNull \/ exists s, em = Some (JStr s) /\ lower (trim s) = [].
Proof.
  destruct em as [[|b|n|s|l|f]|]; cbn; split; intros H; auto; try discriminate;
    try (destruct H as [H|[H|[s' [H _]]]]; discriminate).
  - right; right. exists s. split; [reflexivity|].
    destruct (emptyToNull_cases (lower (trim s))) as [[_ E]|[E Hn]]; [exact E | congruence].
  - destruct H as [H|[H|[s' [[= <-] E]]]]; try discriminate. now rewrite E.
Qed.

Lemma normEmail_some (em : option (JVal number)) x :
  normEmail lower em = Some (Some x) ->
  exists s, em = Some (JStr s) /\ x = lower (trim s) /\ x <> [].
Proof.
  destruct em as [[|b|n|s|l|f]|]; cbn; intros H; try discriminate.
  exists s. split; [reflexivity|].
  destruct (emptyToNull_cases (lower (trim s))) as [[E _]|[E Hn]]; rewrite E in H;
    [discriminate | injection H as <-; auto].
Qed.

Lemma normPhone_none (ph : option (JVal number)) :
  normPhone toStr ph = None <-> exists v, ph = Some v /\ v <> JNull /\ jsToString toStr v = None.
Proof.
  unfold normPhone. destruct ph as [v|].
  - destruct v as [|b|n|s|l|f] eqn:Ev;
      [split; [discriminate | intros [v' [[= <-] [Hn _]]]; congruence]|..];
      (rewrite <- Ev; destruct (jsToString toStr v) as [s'|] eqn:Es;
       [split; [discriminate | intros [v' [[= <-] [_ Hs]]]; congruence]
       |split; [intros _; exists v; subst v; split; [reflexivity|split; [discriminate|exact Es]]
               |reflexivity]]).
  - split; [discriminate | intros [v' [[=] _]]].
Qed.

Lemma normPhone_absent (ph : option (JVal number)) :
  normPhone toStr ph = Some None <->
  ph = None \/ ph = Some JNull \/
  exists v s, ph = Some v /\ v <> JNull /\ jsToString toStr v = Some s /\ trim s = [].
Proof.
  unfold normPhone. destruct ph as [v|]; [|split; auto].
  destruct v as [|b|n|s|l|f] eqn:Ev; [split; auto|..];
    (rewrite <- Ev; destruct (jsToString toStr v) as [s'|] eqn:Es;
     [destruct (emptyToNull_cases (trim s')) as [[E1 E2]|[E1 E2]]; rewrite E1;
      [split; [intros _; right; right; exists v, s'; subst v; repeat split; auto; discriminate
              |reflexivity]
      |split; [discriminate|];
       intros [H|[H|[v' [s'' [[= <-] [_ [Hs E]]]]]]]; subst v; try discriminate;
       rewrite Es in Hs; injection Hs as <-; contradiction]
     |split; [discriminate|];
      intros [H|[H|[v' [s'' [[= <-] [_ [Hs E]]]]]]]; subst v; try discriminate; congruence]).
Qed.

Lemma normPhone_some (ph : option (JVal number)) x :
  normPhone toStr ph = Some (Some x) ->
  exists v s, ph = Some v /\ v <> JNull /\ jsToString toStr v = Some s /\ x = trim s /\
    x <> [].
Proof.
  unfold normPhone. destruct ph as [v|]; [|discriminate].
  destruct v as [|b|n|s|l|f] eqn:Ev; [discriminate|..];
    (rewrite <- Ev; destruct (jsToString toStr v) as [s'|] eqn:Es; [|discriminate];
     destruct (emptyToNull_cases (trim s')) as [[E1 _]|[E1 E2]]; rewrite E1; [discriminate|];
     intros H; injection H as <-; exists v, s'; subst v; repeat split; auto; discriminate).
Qed.

Lemma normEmail_ok (em : option (JVal number)) :
  normEmail lower em <> None <-> em = None \/ em = Some JNull \/ exists s, em = Some (JStr s).
Proof.
  destruct em as [[|b|n|s|l|f]|]; cbn; split; intros H; eauto; try congruence;
    destruct H as [H|[H|[s' H]]]; discriminate.
Qed.

Lemma validate_eq (em ph : option (JVal number)) :
  validateIdentifyRequest toStr lower em ph =
  match normEmail lower em with
  | None => Reject 400 "email must be a string"
  | Some e =>
      match normPhone toStr ph with
      | None => Thrown
      | Some p => if negb (truthyJ e) && negb (truthyJ p)
                  then Reject 400 "At least one of email or phoneNumber is required"
                  else Next e p
      end
  end.
Proof. reflexivity. Qed.

Lemma normEmail_truthy (em : option (JVal number)) e :
  normEmail lower em = Some e -> truthyJ e = match e with Some _ => true | None => false end.
Proof.
  destruct e as [x|]; [|reflexivity]. intros H.
  destruct (normEmail_some em x H) as [s [_ [_ Hx]]].
  destruct x; [congruence | reflexivity].
Qed.

Lemma normPhone_truthy (ph : option (JVal number)) p :
  normPhone toStr ph = Some p -> truthyJ p = match p with Some _ => true | None => false end.
Proof.
  destruct p as [x|]; [|reflexivity]. intros H.
  destruct (normPhone_some ph x H) as [v [s [_ [_ [_ [_ Hx]]]]]].
  destruct x; [congruence | reflexivity].
Qed.

End Validation.

(** The request validation hands over a request with at least one field
    present.  A present email is non-empty and is the lower-casing of the
    trimmed email string of the body; a present phone number is non-empty,
    has no white space or line terminator at either end, and is the
    trimmed [toString()] of the body's phone number.  This holds whatever
    function [toLowerCase] is. *)
Theorem validate_next_normalized {number} (toStr : number -> jsstr) (lower : jsstr -> jsstr)
  em ph e p :
  validateIdentifyRequest toStr lower em ph = Next e p ->
  (e <> None \/ p <> None) /\
  (forall s, e = Some s -> s <> [] /\ exists s0, em = Some (JStr s0) /\ s = lower (trim s0)) /\
  (forall s, p = Some s -> s <> [] /\ trimmedStr s /\
     exists v s0, ph = Some v /\ jsToString toStr v = Some s0 /\ s = trim s0).
Proof.
  rewrite validate_eq.
  destruct (normEmail lower em) as [e'|] eqn:He; [|discriminate].
  destruct (normPhone toStr ph) as [p'|] eqn:Hp; [|discriminate].
  rewrite (normEmail_truthy lower em e' He), (normPhone_truthy toStr ph p' Hp).
  intros H.
  assert (H' : e' = e /\ p' = p /\ (e <> None \/ p <> None)).
  { destruct e', p'; cbn in H; try discriminate; injection H as <- <-;
      (split; [reflexivity|]; split; [reflexivity|]); [left|left|right]; discriminate. }
  destruct H' as [<- [<- Hor]].
  split; [exact Hor|]. split.
  - intros s ->. destruct (normEmail_some lower em s He) as [s0 [Es0 [Es Hs]]]. eauto.
  - intros s ->. destruct (normPhone_some toStr ph s Hp) as [v [s0 [Ev [_ [Es0 [Es Hs]]]]]].
    split; [exact Hs|]. split; [rewrite Es; apply trim_trimmed | eauto].
Qed.

Lemma validate_next_normalized_witness :
  validateIdentifyRequest (fun n : jsstr => n) (fun s : jsstr => s)
    (Some (JStr ([160%N] ++ lit "a@x.io" ++ [12288%N]))) (Some (JNum (lit " 42")))
    = Next (Some (lit "a@x.io")) (Some (lit "42")) /\
  (Some (lit "a@x.io") <> None \/ Some (lit "42") <> None).
Proof.
  split; [vm_compute; reflexivity|].
  apply (validate_next_normalized (fun n : jsstr => n) (fun s : jsstr => s)
           (Some (JStr ([160%N] ++ lit "a@x.io" ++ [12288%N]))) (Some (JNum (lit " 42")))
           (Some (lit "a@x.io")) (Some (lit "42"))).
  vm_compute. reflexivity.
Defined.

(** The three ways validation stops a request: a present, non-null email
    that is not a string gets 400 'email must be a string' (whatever the
    phone number); an email that is absent, null or lower-cases after
    trimming to the empty string, together with a phone number that is
    absent, null or trims to the empty string, gets 400 'At least one of
    email or phoneNumber is required'; and with an acceptable email, a
    phone number whose [toString] throws (an object with an own [toString]
    key, or an array holding one) makes the middleware throw instead of
    answering.  Every rejection has status 400. *)
Theorem validate_rejections {number} (toStr : number -> jsstr) (lower : jsstr -> jsstr) em ph :
  (validateIdentifyRequest toStr lower em ph = Reject 400 "email must be a string" <->
     exists v, em = Some v /\ v <> JNull /\ forall s, v <> JStr s) /\
  (validateIdentifyRequest toStr lower em ph =
     Reject 400 "At least one of email or phoneNumber is required" <->
     (em = None \/ em = Some JNull \/ exists s, em = Some (JStr s) /\ lower (trim s) = []) /\
     (ph = None \/ ph = Some JNull \/
      exists v s, ph = Some v /\ v <> JNull /\ jsToString toStr v = Some s /\ trim s = [])) /\
  (validateIdentifyRequest toStr lower em ph = Thrown <->
     (em = None \/ em = Some JNull \/ exists s, em = Some (JStr s)) /\
     exists v, ph = Some v /\ v <> JNull /\ jsToString toStr v = None) /\
  (forall st msg, validateIdentifyRequest toStr lower em ph = Reject st msg -> st = 400).
Proof.
  rewrite <- (normEmail_none lower), <- (normEmail_absent lower), <- (normEmail_ok lower).
  rewrite <- (normPhone_none toStr), <- (normPhone_absent toStr).
  rewrite validate_eq.
  destruct (normEmail lower em) as [e|] eqn:He.
  - destruct (normPhone toStr ph) as [p|] eqn:Hp.
    + rewrite (normEmail_truthy lower em e He), (normPhone_truthy toStr ph p Hp).
      destruct e, p; cbn; intuition congruence.
    + intuition congruence.
  - intuition congruence.
Qed.

(** ** withRetry for any number of retries *)

Lemma retryLoop_spec {A} (fn : nat -> Error + A) R : forall k i, 0 < k -> i + k = R ->
  let '(r, n) := retryLoop fn R i k in
  1 <= n <= k /\ r = fn (i + n - 1) /\
  (forall j, i <= j < i + n - 1 -> exists err, fn j = inl err /\ isRetryable err = true) /\
  (n < k -> forall err, r = inl err -> isRetryable err = false).
Proof.
  induction k as [|k IH]; intros i Hk HR; [lia|]. cbn [retryLoop].
  destruct (fn i) as [err|a] eqn:Hf.
  - destruct (isRetryable err && Nat.ltb i (R - 1)) eqn:Hc.
    + apply andb_true_iff in Hc as [Hre Hlt]. apply Nat.ltb_lt in Hlt.
      specialize (IH (S i) ltac:(lia) ltac:(lia)). revert IH.
      destruct (retryLoop fn R (S i) k) as [r n]. intros IH. hnf in IH.
      destruct IH as (Hn & Hr & Hbefore & Hlast).
      split; [lia|]. split; [rewrite Hr; f_equal; lia|]. split.
      * intros j Hj. destruct (Nat.eq_dec j i) as [->|Hne]; [eauto|].
        apply Hbefore. lia.
      * intros Hlt' e' He'. apply (Hlast ltac:(lia) e' He').
    + split; [lia|]. split; [rewrite Nat.add_sub; symmetry; exact Hf|].
      split; [intros j Hj; lia|].
      intros Hlt e' [= <-]. destruct (isRetryable err) eqn:Hre; [|reflexivity].
      cbn in Hc. apply Nat.ltb_ge in Hc. lia.
  - split; [lia|]. split; [rewrite Nat.add_sub; symmetry; exact Hf|].
    split; [intros j Hj; lia|]. intros _ e' [=].
Qed.

(** [withRetry fn retries]: with no retries allowed the loop body never
    runs and 'Max retries reached' is thrown; otherwise [fn] runs between
    once and [retries] times, every run but the last failed with a
    retryable error, the caller gets the last run's outcome unchanged, and
    a run that ends the loop early failed, if at all, with a non-retryable
    error (so 'Max retries reached' is thrown only for [retries = 0]). *)
Theorem withRetry_any_retries {A} (fn : nat -> Error + A) :
  withRetry fn 0 = (inl MaxRetriesReached, 0) /\
  forall k, let '(r, n) := withRetry fn (S k) in
    1 <= n <= S k /\ r = fn (n - 1) /\
    (forall i, i < n - 1 -> exists err, fn i = inl err /\ isRetryable err = true) /\
    (n < S k -> forall err, r = inl err -> isRetryable err = false).
Proof.
  split; [reflexivity|]. intros k.
  pose proof (retryLoop_spec fn (S k) (S k) 0 ltac:(lia) ltac:(lia)) as H.
  unfold withRetry. revert H. destruct (retryLoop fn (S k) 0 (S k)) as [r n]. intros H. hnf in H.
  destruct H as (Hn & Hr & Hb & Hl). split; [exact Hn|]. split; [exact Hr|].
  split; [|exact Hl]. intros i Hi. apply Hb. lia.
Qed.

(** ** findRootPrimary *)

Lemma followLinks_outcome cs i : forall r o,
  (forall c, o = Some c -> In c cs) ->
  match followLinks cs i r o with
  | inr c => In c cs /\ nextLink c = None
  | inl e => e = CircularLink i \/ e = ContactNotFound i
  end.
Proof.
  assert (Hf : forall l c, findUniqueIn cs l = Some c -> In c cs).
  { intros l c H. unfold findUniqueIn in H. now apply find_some in H. }
  induction r as [|r IH]; intros [c|] Ho; cbn; auto;
    specialize (Ho c eq_refl);
    destruct (linkPrecedence c) eqn:P, (linkedId c) as [l|] eqn:L; cbn;
    try (split; [exact Ho | unfold nextLink; rewrite P; try rewrite L; reflexivity]);
    destruct (Nat.eqb l 0) eqn:E; cbn; auto;
    try (split; [exact Ho | unfold nextLink; rewrite P, L, E; reflexivity]).
  apply IH, Hf.
Qed.

Lemma findRootIn_outcome cs i maxDepth :
  match findRootPrimaryIn cs i maxDepth with
  | inr c => In c cs /\ nextLink c = None
  | inl e => e = CircularLink i \/ e = ContactNotFound i
  end.
Proof.
  apply followLinks_outcome. intros c H. unfold findUniqueIn in H.
  now apply find_some in H.
Qed.

(** [findRootPrimary] either returns a row of the store at which its loop
    stops (a primary, or a secondary whose [linkedId] is null or 0), or
    fails with one of its two errors, and both errors name the id it was
    called with. *)
Theorem findRootPrimary_outcome cs i maxDepth :
  match findRootPrimaryIn cs i maxDepth with
  | inr c => In c cs /\ nextLink c = None
  | inl e => e = CircularLink i \/ e = ContactNotFound i
  end.
Proof. exact (findRootIn_outcome cs i maxDepth). Qed.

(** On unique ids, [findRootPrimary] returns a primary row itself for every
    [maxDepth], whether it is soft-deleted or not ([findUnique] does not
    filter on [deletedAt]); a secondary linked to it is resolved in one
    hop for every [maxDepth] of at least 1, while [maxDepth] 0 already
    reports that one hop as a circular link. *)
Theorem findRootPrimary_one_hop cs c p maxDepth :
  NoDup (map id cs) -> In c cs -> In p cs -> linkPrecedence p = primary ->
  linkPrecedence c = secondary -> linkedId c = Some (id p) -> 0 < id p ->
  findRootPrimaryIn cs (id p) maxDepth = inr p /\
  findRootPrimaryIn cs (id c) (S maxDepth) = inr p /\
  findRootPrimaryIn cs (id c) 0 = inl (CircularLink (id c)).
Proof.
  intros Hn Hc Hp Pp Pc Lc Hpos.
  assert (Ep : findRootPrimaryIn cs (id p) maxDepth = inr p).
  { unfold findRootPrimaryIn. rewrite (findUnique_in _ _ Hn Hp). destruct maxDepth; cbn;
      rewrite Pp; reflexivity. }
  unfold findRootPrimaryIn. rewrite (findUnique_in _ _ Hn Hc). cbn. rewrite Pc, Lc.
  destruct (Nat.eqb (id p) 0) eqn:E; [apply Nat.eqb_eq in E; lia|].
  split; [exact Ep|]. split; [|reflexivity].
  rewrite (findUnique_in _ _ Hn Hp). destruct maxDepth; cbn; rewrite Pp; reflexivity.
Qed.

Lemma findRootPrimary_one_hop_witness :
  findRootPrimaryIn (contacts dbDeletedSecondary) 2 5 =
    inr (mkC 2 "b@x.edu" "222" primary None 1 None) /\
  findRootPrimaryIn (contacts dbDeletedSecondary) 3 1 =
    inr (mkC 2 "b@x.edu" "222" primary None 1 None) /\
  findRootPrimaryIn (contacts dbDeletedSecondary) 3 0 = inl (CircularLink 3).
Proof.
  apply (findRootPrimary_one_hop (contacts dbDeletedSecondary)
           (mkC 3 "c@x.edu" "333" secondary (Some 2) 2 (Some 3%Z))
           (mkC 2 "b@x.edu" "222" primary None 1 None) 0).
  - cbn. repeat constructor; cbn; intuition discriminate.
  - cbn. auto 10.
  - cbn. auto 10.
  - reflexivity.
  - reflexivity.
  - reflexivity.
  - cbn. lia.
Defined.

(** A missing row: [findRootPrimary] on an id no row has fails with
    'not found' for that id, and from a secondary whose [linkedId] names
    no row it fails with 'not found' naming the secondary's id, not the
    missing one. *)
Theorem findRootPrimary_dangling cs c q maxDepth :
  NoDup (map id cs) -> In c cs -> linkPrecedence c = secondary -> linkedId c = Some q ->
  0 < q -> (forall x, In x cs -> id x <> q) ->
  findRootPrimaryIn cs q maxDepth = inl (ContactNotFound q) /\
  findRootPrimaryIn cs (id c) (S maxDepth) = inl (ContactNotFound (id c)).
Proof.
  intros Hn Hc Pc Lc Hq Hmiss.
  assert (Hnone : findUniqueIn cs q = None).
  { unfold findUniqueIn. destruct (find (fun x => Nat.eqb (id x) q) cs) as [x|] eqn:F;
      [|reflexivity].
    apply find_some in F as [Hx E]. apply Nat.eqb_eq in E. now destruct (Hmiss x Hx). }
  unfold findRootPrimaryIn. rewrite Hnone. split; [destruct maxDepth; reflexivity|].
  rewrite (findUnique_in _ _ Hn Hc). cbn. rewrite Pc, Lc.
  destruct (Nat.eqb q 0) eqn:E; [apply Nat.eqb_eq in E; lia|].
  rewrite Hnone. destruct maxDepth; reflexivity.
Qed.

Lemma findRootPrimary_dangling_witness :
  findRootPrimaryIn [mkC 3 "c@x.edu" "333" secondary (Some 7) 0 None] 7 10 =
    inl (ContactNotFound 7) /\
  findRootPrimaryIn [mkC 3 "c@x.edu" "333" secondary (Some 7) 0 None] 3 10 =
    inl (ContactNotFound 3).
Proof.
  apply (findRootPrimary_dangling [mkC 3 "c@x.edu" "333" secondary (Some 7) 0 None]
           (mkC 3 "c@x.edu" "333" secondary (Some 7) 0 None) 7 9).
  - cbn. repeat constructor. intros [].
  - now left.
  - reflexivity.
  - reflexivity.
  - lia.
  - intros x [<-|[]]. cbn. discriminate.
Defined.

(** ** uniqueMatches *)

Lemma dedupById_fresh seen l y : In y (dedupById seen l) -> ~ In (id y) seen.
Proof.
  revert seen; induction l as [|c l IH]; intros seen H; cbn in H; [contradiction|].
  destruct (existsb (Nat.eqb (id c)) seen) eqn:E; [now apply (IH seen)|].
  destruct H as [->|H].
  - intros Hin.
    assert (Hx : existsb (Nat.eqb (id y)) seen = true).
    { apply existsb_exists. exists (id y). split; [exact Hin | apply Nat.eqb_refl]. }
    congruence.
  - intros Hin. apply (IH _ H). now right.
Qed.

Lemma dedupById_find seen l y :
  In y (dedupById seen l) -> find (fun c => Nat.eqb (id c) (id y)) l = Some y.
Proof.
  revert seen; induction l as [|c l IH]; intros seen H; cbn in H |- *; [contradiction|].
  destruct (existsb (Nat.eqb (id c)) seen) eqn:E.
  - destruct (Nat.eqb (id c) (id y)) eqn:Ec; [|eapply IH; eauto].
    exfalso. apply Nat.eqb_eq in Ec. apply (dedupById_fresh _ _ _ H).
    apply existsb_exists in E as [k [Hk Ek]]. apply Nat.eqb_eq in Ek. congruence.
  - destruct H as [<-|H]; [now rewrite Nat.eqb_refl|].
    destruct (Nat.eqb (id c) (id y)) eqn:Ec; [|eapply IH; eauto].
    exfalso. apply Nat.eqb_eq in Ec. apply (dedupById_fresh _ _ _ H). rewrite Ec. now left.
Qed.

Lemma dedupById_nodup seen l : NoDup (map id (dedupById seen l)).
Proof.
  revert seen; induction l as [|c l IH]; intros seen; cbn; [constructor|].
  destruct (existsb (Nat.eqb (id c)) seen); auto. cbn. constructor; auto.
  intros Hin. apply in_map_iff in Hin as [y [Ey Hy]].
  apply (dedupById_fresh _ _ _ Hy). rewrite Ey. now left.
Qed.

(** The [findIndex] filter that builds [uniqueMatches] keeps one row per
    id: no two kept rows share an id, every id of the matches is kept, and
    the row kept for an id is the first row of the matches carrying it. *)
Theorem uniqueMatches_first_per_id l :
  NoDup (map id (dedupById [] l)) /\
  (forall x, In x l -> exists y, In y (dedupById [] l) /\ id y = id x) /\
  (forall y, In y (dedupById [] l) -> find (fun c => Nat.eqb (id c) (id y)) l = Some y).
Proof.
  split; [apply dedupById_nodup|]. split.
  - intros x Hx. exact (dedupById_cover [] l x Hx (fun H => H)).
  - intros y. apply dedupById_find.
Qed.

(** ** Failures of the transaction body *)

Lemma mapSet_nonempty k v pm : mapSet k v pm <> [].
Proof. destruct pm as [|[k' v'] pm]; cbn; [discriminate|]. destruct (Nat.eqb k k'); discriminate. Qed.

Lemma resolveRoots_cases ms : forall pm db,
  match resolveRoots ms pm db with
  | inl err => exists i, err = CircularLink i \/ err = ContactNotFound i
  | inr (pm', db') => db' = db /\ (ms <> [] \/ pm <> [] -> pm' <> []) /\
      forall v, In v (map snd pm') -> In v (map snd pm) \/ In v (contacts db)
  end.
Proof.
  induction ms as [|m ms IH]; intros pm db; cbn.
  - split; [reflexivity|]. split; [intros [H|H]; [congruence | exact H]|]. auto.
  - unfold bind, findRootPrimary.
    pose proof (findRootIn_outcome (contacts db) (rootStart m) 10) as Ho.
    destruct (findRootPrimaryIn (contacts db) (rootStart m) 10) as [err|r]; [eauto|].
    destruct Ho as [Hr _].
    specialize (IH (mapSet (id r) r pm) db).
    destruct (resolveRoots ms (mapSet (id r) r pm) db) as [err|[pm' db']]; [exact IH|].
    destruct IH as [-> [Hne Hin]]. split; [reflexivity|]. split.
    + intros _. apply Hne. right. apply mapSet_nonempty.
    + intros v Hv. destruct (Hin v Hv) as [H|H]; auto.
      apply mapSet_in in H as [->|H]; auto.
Qed.

Lemma existsb_id cs i : existsb (fun c => Nat.eqb (id c) i) cs = true <-> In i (map id cs).
Proof.
  rewrite existsb_exists, in_map_iff. split.
  - intros [c [Hc E]]. apply Nat.eqb_eq in E. eauto.
  - intros [c [E Hc]]. exists c. split; [exact Hc | now apply Nat.eqb_eq].
Qed.

Lemma mergeNewer_ok o T : forall db,
  (forall t, In t T -> In (id t) (map id (contacts db))) ->
  exists db', mergeNewer o T db = inr (tt, db').
Proof.
  induction T as [|t T IH]; intros db H; [eexists; reflexivity|].
  cbn [mergeNewer]. unfold bind at 1. unfold updateManyLinked at 1. cbn beta iota.
  unfold bind at 1. unfold updateDemote at 1. cbn [contacts].
  assert (Eids : map id (map (relink (id t) (id o)) (contacts db)) = map id (contacts db)).
  { rewrite map_map. apply map_ext. apply relink_id. }
  replace (existsb (fun c => Nat.eqb (id c) (id t)) (map (relink (id t) (id o)) (contacts db)))
    with true by (symmetry; apply existsb_id; rewrite Eids; apply H; now left).
  apply IH. intros t' Ht'. cbn [contacts].
  rewrite (map_map (demote (id t) (id o)) id).
  rewrite (map_ext _ id (fun c => demote_id (id t) (id o) c)), Eids. apply H. now right.
Qed.

(** A failing transaction body fails only in [findRootPrimary]: with a
    circular link or a missing row.  The [undefined] access on
    [primaries[0]] and a failing [update] of a merge target never happen. *)
Theorem identifyBody_errors e p db err :
  identifyBody e p db = inl err -> exists i, err = CircularLink i \/ err = ContactNotFound i.
Proof.
  intros H. destruct (lookup_ok e p db) as [ms Hl].
  destruct ms as [|m ms].
  - rewrite (body_nomatch_eq _ _ _ Hl), buildResponse_eq in H. discriminate.
  - rewrite (body_matched_eq _ _ _ _ Hl ltac:(discriminate)) in H.
    unfold bind at 1 in H.
    destruct (resolveAndMerge (m :: ms) db) as [err'|[o dbm]] eqn:E.
    + injection H as <-. revert E. unfold resolveAndMerge, bind at 1.
      pose proof (resolveRoots_cases (m :: ms) [] db) as Hr.
      destruct (resolveRoots (m :: ms) [] db) as [e1|[pm db1]]; [intros [= <-]; exact Hr|].
      destruct Hr as [-> [Hne Hin]].
      destruct (sortByCreatedAt (map snd pm)) as [|o rest] eqn:Hs.
      * exfalso. assert (Hpm : pm <> []) by (apply Hne; left; discriminate). apply Hpm.
        pose proof (sort_perm (map snd pm)) as Hp. rewrite Hs in Hp.
        apply Permutation_nil in Hp. destruct pm; [reflexivity | discriminate].
      * destruct (Nat.ltb 1 (length (o :: rest))); [|discriminate].
        destruct (mergeNewer_ok o rest db) as [db' Em].
        { intros t Ht. apply in_map. destruct (Hin t) as [[]|Ht']; [|exact Ht'].
          apply (Permutation_in _ (sort_perm _)). rewrite Hs. now right. }
        unfold bind. rewrite Em. discriminate.
    + unfold bind in H. rewrite addIfNew_eq in H.
      destruct (_ || _); rewrite buildResponse_eq in H; discriminate.
Qed.

Lemma identifyBody_errors_witness :
  identifyBody (Some "a@x.edu"%string) None dbCycle = inl (CircularLink 2) /\
  exists i, CircularLink 2 = CircularLink i \/ CircularLink 2 = ContactNotFound i.
Proof.
  split; [vm_compute; reflexivity|].
  apply (identifyBody_errors (Some "a@x.edu"%string) None dbCycle).
  vm_compute. reflexivity.
Defined.

(** ** What a reconcile writes *)

Lemma keepsRows_refl db : keepsRows 0 db db.
Proof.
  split; [exists []; split; [symmetry; apply app_nil_r | cbn; lia]|].
  split; [exists []; symmetry; apply app_nil_r | reflexivity].
Qed.

Lemma keepsRows_trans m n db1 db2 db3 :
  keepsRows m db1 db2 -> keepsRows n db2 db3 -> keepsRows (m + n) db1 db3.
Proof.
  intros [[x1 [E1 L1]] [[w1 W1] C1]] [[x2 [E2 L2]] [[w2 W2] C2]].
  split; [|split; [exists (w1 ++ w2); rewrite W2, W1; symmetry; apply app_assoc | congruence]].
  exists (x1 ++ x2). split; [|rewrite length_app; lia].
  rewrite E2, E1, map_app. symmetry. apply app_assoc.
Qed.

Lemma keepsRows_map db f w :
  (forall c, rowData (f c) = rowData c) ->
  keepsRows 0 db (mkDB (map f (contacts db)) (next_id db) (clock db) (log db ++ w)).
Proof.
  intros Hf. split; [|split; [exists w; reflexivity | reflexivity]].
  exists []. cbn. rewrite app_nil_r, map_map. split; [|lia]. apply map_ext. exact Hf.
Qed.

Lemma keepsRows_add db c w :
  keepsRows 1 db (mkDB (contacts db ++ [c]) (S (next_id db)) (clock db) (log db ++ w)).
Proof.
  split; [|split; [exists w; reflexivity | reflexivity]].
  exists [c]. cbn. rewrite map_app. split; [reflexivity | lia].
Qed.

Lemma mergeNewer_keeps o T : forall db u db',
  mergeNewer o T db = inr (u, db') -> keepsRows 0 db db'.
Proof.
  induction T as [|t T IH]; intros db u db' H.
  - cbn in H. injection H as _ <-. apply keepsRows_refl.
  - cbn [mergeNewer] in H. unfold bind at 1 in H. unfold updateManyLinked at 1 in H.
    cbn beta iota in H. unfold bind at 1 in H. unfold updateDemote at 1 in H.
    destruct (existsb _ _); [|discriminate].
    apply (keepsRows_trans 0 0 _ _ _
             (keepsRows_map db (relink (id t) (id o)) [WUpdateMany (id t) (id o)]
                (fun c => ltac:(unfold relink; destruct (linksTo (id t) c); reflexivity)))).
    apply (keepsRows_trans 0 0 _ _ _
             (keepsRows_map _ (demote (id t) (id o)) [WUpdate (id t) (id o)]
                (fun c => ltac:(unfold demote; destruct (Nat.eqb (id c) (id t)); reflexivity)))).
    cbn [contacts next_id clock log] in H. exact (IH _ _ _ H).
Qed.

Lemma resolveAndMerge_keeps ms db o dbm :
  resolveAndMerge ms db = inr (o, dbm) -> keepsRows 0 db dbm.
Proof.
  intros H. destruct (resolveAndMerge_inv _ _ _ _ H) as [pm [rest [_ [_ Hm]]]].
  exact (mergeNewer_keeps _ _ _ _ _ Hm).
Qed.

Lemma addIfNew_keeps e p ms o dbm dba :
  addIfNew e p ms o dbm = inr (tt, dba) -> keepsRows 1 dbm dba.
Proof.
  rewrite addIfNew_eq. destruct (_ || _); intros H; injection H as <-.
  - apply keepsRows_add.
  - pose proof (keepsRows_refl dbm) as [[x [E L]] R].
    split; [exists x; split; [exact E | lia] | exact R].
Qed.

(** A successful transaction body only appends: every row keeps its id,
    email, phone number, createdAt and deletedAt, in place (only
    [linkPrecedence] and [linkedId] are ever written), at most one row is
    added after them, the write log is only extended, and the clock is
    not moved. *)
Theorem identifyBody_keeps_rows e p db v db' :
  identifyBody e p db = inr (v, db') -> keepsRows 1 db db'.
Proof.
  intros H. destruct (lookup_ok e p db) as [[|m ms] Hl].
  - rewrite (body_nomatch_eq _ _ _ Hl) in H.
    apply buildResponse_id in H as [_ ->]. apply keepsRows_add.
  - destruct (body_matched _ _ _ _ _ _ Hl ltac:(discriminate) H)
      as [o [dbm [dba [Hr [Ha Hb]]]]].
    apply buildResponse_id in Hb as [_ ->].
    exact (keepsRows_trans 0 1 _ _ _ (resolveAndMerge_keeps _ _ _ _ Hr)
             (addIfNew_keeps _ _ _ _ _ _ Ha)).
Qed.

Lemma identifyBody_keeps_rows_witness :
  exists v db', identifyBody (Some "a@x.edu"%string) (Some "999"%string) dbTwoGroups
                  = inr (v, db') /\ keepsRows 1 dbTwoGroups db'.
Proof.
  eexists; eexists; split; [vm_compute; reflexivity|].
  eapply (identifyBody_keeps_rows (Some "a@x.edu"%string) (Some "999"%string) dbTwoGroups).
  vm_compute. reflexivity.
Defined.

(** ** Reconcile on a well-formed store *)

Lemma dropLaterDups_keep l y : In y l -> In y (dropLaterDups l).
Proof.
  induction l as [|x l IH]; cbn; auto. intros [->|H]; [now left|].
  destruct (String.eqb y x) eqn:E; [apply String.eqb_eq in E; now left|].
  right. apply filter_In. split; [now apply IH | now rewrite E].
Qed.

Lemma uniqStr_in s l : In s (uniqStr l) <-> In s l.
Proof.
  rewrite uniqStr_dropLaterDups. split; [apply dropLaterDups_in | apply dropLaterDups_keep].
Qed.

Lemma nodup_map_filter {A B} (f : A -> B) (g : A -> bool) l :
  NoDup (map f l) -> NoDup (map f (filter g l)).
Proof.
  induction l as [|x l IH]; cbn; auto. intros Hn. inversion Hn as [|? ? Hx Hl]; subst.
  destruct (g x); cbn; auto. constructor; auto.
  intros Hi. apply Hx. apply in_map_iff in Hi as [y [Ey Hy]]. apply filter_In in Hy as [Hy _].
  rewrite <- Ey. now apply in_map.
Qed.

(** What [buildResponse] reports about a member of the group of [o]. *)
Lemma response_group o db v db' g :
  buildResponse o db = inr (v, db') -> In g (groupOf db o) ->
  (id g = primaryContatctId v \/ In (id g) (secondaryContactIds v)) /\
  (forall s, email g = Some s -> s <> EmptyString -> In s (emails v)) /\
  (forall s, phoneNumber g = Some s -> s <> EmptyString -> In s (phoneNumbers v)).
Proof.
  rewrite buildResponse_eq. intros H Hg. injection H as <- _.
  cbn [primaryContatctId emails phoneNumbers secondaryContactIds].
  assert (Hg' : In g (o :: sortByCreatedAt (filter (linksTo (id o)) (contacts db)))).
  { destruct Hg as [<-|Hg]; [now left | right].
    exact (Permutation_in _ (Permutation_sym (sort_perm _)) Hg). }
  split; [destruct Hg' as [<-|Hg']; [now left | right; now apply in_map]|].
  set (L := o :: sortByCreatedAt (filter (linksTo (id o)) (contacts db))) in *.
  split.
  - intros s Es Hs. apply (proj2 (uniqStr_in s (truthyVals (map email L)))).
    apply (proj2 (truthyVals_in (map email L) s Hs)). rewrite <- Es. now apply in_map.
  - intros s Es Hs. apply (proj2 (uniqStr_in s (truthyVals (map phoneNumber L)))).
    apply (proj2 (truthyVals_in (map phoneNumber L) s Hs)). rewrite <- Es. now apply in_map.
Qed.

(** A successful reconcile on a well-formed store answers for a live
    primary [o] of the committed store whose group holds every matched
    record and the input's email and phone. *)
Lemma body_group e p db v db' :
  wf db -> identifyBody e p db = inr (v, db') ->
  exists o, buildResponse o db' = inr (v, db') /\
    In o (contacts db') /\ linkPrecedence o = primary /\ isLive o = true /\
    (forall m, In m (contacts db) -> isLive m = true ->
       fieldMatch e (email m) \/ fieldMatch p (phoneNumber m) ->
       exists g, In g (groupOf db' o) /\ id g = id m) /\
    (forall s, e = Some s -> s <> EmptyString ->
       exists g, In g (groupOf db' o) /\ email g = Some s) /\
    (forall s, p = Some s -> s <> EmptyString ->
       exists g, In g (groupOf db' o) /\ phoneNumber g = Some s).
Proof.
  intros Hwf H. destruct (lookup_ok e p db) as [ms Hl].
  destruct (lookup_spec _ _ _ _ _ Hl) as [_ [Hsound Hcomp]].
  pose proof (ids_nodup _ (proj1 (proj1 Hwf))) as Hnd.
  destruct ms as [|m0 ms0].
  - rewrite (body_nomatch_eq _ _ _ Hl) in H.
    pose proof H as Hb. apply buildResponse_id in Hb as [_ Ed]. subst db'.
    set (n := mkContact (next_id db) e p primary None (clock db) None) in *.
    exists n. split; [exact H|].
    split; [cbn; apply in_or_app; right; now left|].
    split; [reflexivity|]. split; [reflexivity|].
    split; [intros m Hm Hml Hf; exfalso; exact (Hcomp Hnd m Hm Hml Hf)|].
    split; intros s Es _; exists n; (split; [now left | subst n; cbn; congruence]).
  - set (ms := m0 :: ms0) in *.
    assert (Hne : ms <> []) by discriminate.
    destruct (body_matched_wf _ _ _ _ _ _ Hwf Hl Hne H)
      as [pm [surv [targets (_ & _ & Hroots & Hndr & Hcov & _ & Ha & Hb)]]].
    set (dbm := mkDB (map (mergeEffect targets (id surv)) (contacts db)) (next_id db) (clock db)
                  (log db ++ mergeLog targets (id surv))) in *.
    pose proof (addIfNew_keep _ _ _ _ _ _ Ha) as [Hkeep _].
    assert (Hsm : memIds targets (id surv) = false) by (apply nodup_memIds; exact Hndr).
    destruct (Hroots surv (or_introl eq_refl)) as [Hsc [Hsp Hsl]].
    assert (Hsn : linkedId surv = None) by (apply (proj2 (proj1 Hwf) surv Hsc); exact Hsp).
    assert (Hsub : forall g, In g (groupOf dbm surv) -> In g (groupOf db' surv)).
    { intros g [<-|Hg]; [now left|right]. apply filter_In in Hg as [Hg Hlk].
      apply filter_In. split; [apply Hkeep, Hg | exact Hlk]. }
    assert (Hgrp : forall m, In m ms -> In (mergeEffect targets (id surv) m) (groupOf db' surv)).
    { intros m Hm. apply Hsub. destruct (Hsound m Hm) as [Hmc [Hml _]].
      apply merged_in_group; [exact (proj1 Hwf) | exact Hmc | exact Hml | | exact Hsm |].
      - intros r Hr. destruct (Hroots r Hr) as [? [? _]]. auto.
      - apply Hcov, Hm. }
    assert (Hine : forall s, e = Some s -> s <> EmptyString ->
              hasNew e (truthyVals (map email ms)) = false ->
              exists g, In g (groupOf db' surv) /\ email g = Some s).
    { intros s Es Hs Hh. apply (hasNew_false_in e s _ Es Hs) in Hh.
      apply truthyVals_in in Hh; [|exact Hs]. apply in_map_iff in Hh as [m [Em Hm]].
      exists (mergeEffect targets (id surv) m). split; [apply Hgrp, Hm|].
      rewrite (proj1 (mergeEffect_fields _ _ _)). exact Em. }
    assert (Hinp : forall s, p = Some s -> s <> EmptyString ->
              hasNew p (truthyVals (map phoneNumber ms)) = false ->
              exists g, In g (groupOf db' surv) /\ phoneNumber g = Some s).
    { intros s Es Hs Hh. apply (hasNew_false_in p s _ Es Hs) in Hh.
      apply truthyVals_in in Hh; [|exact Hs]. apply in_map_iff in Hh as [m [Em Hm]].
      exists (mergeEffect targets (id surv) m). split; [apply Hgrp, Hm|].
      rewrite (proj1 (proj2 (mergeEffect_fields _ _ _))). exact Em. }
    exists surv. split; [exact Hb|].
    split.
    { apply Hkeep. cbn. pose proof (in_map (mergeEffect targets (id surv)) _ _ Hsc) as Hi.
      rewrite (mergeEffect_surv targets surv Hsn Hsm) in Hi. exact Hi. }
    split; [exact Hsp|]. split; [exact Hsl|].
    split.
    { intros m Hm Hml Hf. exists (mergeEffect targets (id surv) m).
      split; [apply Hgrp, (Hcomp Hnd m Hm Hml Hf) | apply mergeEffect_id]. }
    rewrite addIfNew_eq in Ha.
    destruct (hasNew e (truthyVals (map email ms)) || hasNew p (truthyVals (map phoneNumber ms)))
      eqn:Hor.
    + injection Ha as Ed.
      set (nr := mkContact (next_id dbm) e p secondary (Some (id surv)) (clock dbm) None) in *.
      assert (Hnr : In nr (groupOf db' surv)).
      { right. apply filter_In. split.
        - rewrite <- Ed. cbn [contacts]. apply in_or_app. right. now left.
        - apply linksTo_true. split; reflexivity. }
      split; intros s Es _; exists nr; (split; [exact Hnr | subst nr; cbn; congruence]).
    + apply orb_false_iff in Hor as [He Hp].
      split; intros s Es Hs; [exact (Hine s Es Hs He) | exact (Hinp s Es Hs Hp)].
Qed.

Lemma body_total e p db : wf db -> exists v db', identifyBody e p db = inr (v, db').
Proof.
  intros Hwf. destruct (lookup_ok e p db) as [[|m ms] Hl].
  - rewrite (body_nomatch_eq _ _ _ Hl), buildResponse_eq. eauto.
  - assert (Hne : m :: ms <> []) by discriminate.
    rewrite (body_matched_eq _ _ _ _ Hl Hne).
    destruct (resolveAndMerge_ok db (m :: ms) Hwf) as [surv [dbm E]]; [|exact Hne|].
    { intros x Hx. destruct (lookup_spec _ _ _ _ _ Hl) as [_ [Hs _]].
      destruct (Hs x Hx) as [? [? _]]. auto. }
    unfold bind. rewrite E, addIfNew_eq. destruct (_ || _); rewrite buildResponse_eq; eauto.
Qed.

(** On a well-formed store, a reconcile that the store itself does not
    abort succeeds at its first execution, with the outcome of the
    transaction body on the first snapshot: the body never fails there, so
    [withRetry] makes no second attempt. *)
Theorem identifyContact_wf_first_attempt snapshot storeAbort e p :
  wf (snapshot 0) -> storeAbort 0 = None ->
  exists v db', identifyContact snapshot storeAbort e p = (inr (v, db'), 1) /\
    identifyBody e p (snapshot 0) = inr (v, db').
Proof.
  intros Hwf Ha. destruct (body_total e p _ Hwf) as [v [db' E]].
  exists v, db'. split; [|exact E].
  unfold identifyContact, withRetry. cbn [retryLoop]. unfold attempt. rewrite Ha, E.
  reflexivity.
Qed.

Lemma identifyContact_wf_first_attempt_witness :
  wf dbTwoGroups /\ (fun _ : nat => @None Error) 0 = None /\
  exists v db', identifyContact (fun _ => dbTwoGroups) (fun _ => None)
                  (Some "a@x.edu"%string) (Some "222"%string) = (inr (v, db'), 1) /\
    identifyBody (Some "a@x.edu"%string) (Some "222"%string) dbTwoGroups = inr (v, db').
Proof.
  split; [exact wf_dbTwoGroups|]. split; [reflexivity|].
  apply (identifyContact_wf_first_attempt (fun _ => dbTwoGroups) (fun _ => None)).
  - exact wf_dbTwoGroups.
  - reflexivity.
Defined.

(** On a well-formed store the response of a successful reconcile covers
    the request: a non-empty input email (phone) is among [emails]
    ([phoneNumbers]), and every non-deleted record that matched the input
    is reported, as the primary or as one of the secondaries. *)
Theorem identifyBody_covers_request e p db v db' :
  wf db -> identifyBody e p db = inr (v, db') ->
  (forall s, e = Some s -> s <> EmptyString -> In s (emails v)) /\
  (forall s, p = Some s -> s <> EmptyString -> In s (phoneNumbers v)) /\
  (forall m, In m (contacts db) -> isLive m = true ->
     fieldMatch e (email m) \/ fieldMatch p (phoneNumber m) ->
     id m = primaryContatctId v \/ In (id m) (secondaryContactIds v)).
Proof.
  intros Hwf H.
  destruct (body_group e p db v db' Hwf H) as [o (Hb & _ & _ & _ & Hm & He & Hp)].
  split; [|split].
  - intros s Es Hs. destruct (He s Es Hs) as [g [Hg Eg]].
    exact (proj1 (proj2 (response_group _ _ _ _ _ Hb Hg)) s Eg Hs).
  - intros s Es Hs. destruct (Hp s Es Hs) as [g [Hg Eg]].
    exact (proj2 (proj2 (response_group _ _ _ _ _ Hb Hg)) s Eg Hs).
  - intros m Hmc Hml Hf. destruct (Hm m Hmc Hml Hf) as [g [Hg Eg]].
    rewrite <- Eg. exact (proj1 (response_group _ _ _ _ _ Hb Hg)).
Qed.

Lemma identifyBody_covers_request_witness :
  exists v db', identifyBody (Some "a@x.edu"%string) (Some "222"%string) dbTwoGroups
                  = inr (v, db') /\
  In "a@x.edu"%string (emails v) /\ In "222"%string (phoneNumbers v).
Proof.
  eexists; eexists; split; [vm_compute; reflexivity|].
  destruct (identifyBody_covers_request (Some "a@x.edu"%string) (Some "222"%string)
              dbTwoGroups _ _ wf_dbTwoGroups ltac:(vm_compute; reflexivity)) as [He [Hp _]].
  split; [apply He | apply Hp]; (reflexivity || discriminate).
Defined.

(** On a well-formed store the response of a successful reconcile names
    rows of the committed store: the primary id is a non-deleted primary
    row, each secondary id a distinct non-deleted secondary row linked to
    that primary, and the primary id is not among the secondary ids. *)
Theorem identifyBody_response_rows e p db v db' :
  wf db -> identifyBody e p db = inr (v, db') ->
  (exists o, In o (contacts db') /\ id o = primaryContatctId v /\
             linkPrecedence o = primary /\ isLive o = true) /\
  (forall i, In i (secondaryContactIds v) ->
     exists c, In c (contacts db') /\ id c = i /\ linkPrecedence c = secondary /\
               linkedId c = Some (primaryContatctId v) /\ isLive c = true) /\
  NoDup (secondaryContactIds v) /\ ~ In (primaryContatctId v) (secondaryContactIds v).
Proof.
  intros Hwf H. pose proof (wf_body e p db v db' Hwf H) as Hwf'.
  destruct (body_group e p db v db' Hwf H) as [o (Hb & Ho & Hop & Hol & _)].
  rewrite buildResponse_eq in Hb. injection Hb as Ev. subst v.
  cbn [primaryContatctId secondaryContactIds].
  pose proof (proj2 (proj1 Hwf')) as Hinv.
  pose proof (ids_nodup _ (proj1 (proj1 Hwf'))) as Hnd.
  assert (Hsec : forall x, In x (sortByCreatedAt (filter (linksTo (id o)) (contacts db'))) ->
            In x (contacts db') /\ linkedId x = Some (id o) /\ isLive x = true).
  { intros x Hx. apply (Permutation_in _ (sort_perm _)), filter_In in Hx as [Hx Hlk].
    apply linksTo_true in Hlk. tauto. }
  split; [|split; [|split]].
  - exists o. auto.
  - intros i Hi. apply in_map_iff in Hi as [x [<- Hx]].
    destruct (Hsec x Hx) as (Hxc & Hxl & Hxv). exists x. repeat split; auto.
    destruct (linkPrecedence x) eqn:Px; [|reflexivity].
    apply (proj1 (Hinv x Hxc)) in Px. congruence.
  - eapply Permutation_NoDup; [apply Permutation_map, Permutation_sym, sort_perm|].
    apply nodup_map_filter, Hnd.
  - intros Hi. apply in_map_iff in Hi as [x [Ex Hx]].
    destruct (Hsec x Hx) as (Hxc & Hxl & _).
    rewrite (nodup_ids_eq _ _ _ Hnd Hxc Ho Ex) in Hxl.
    apply (proj1 (Hinv o Ho)) in Hop. congruence.
Qed.

Lemma identifyBody_response_rows_witness :
  exists v db', identifyBody (Some "a@x.edu"%string) (Some "222"%string) dbTwoGroups
                  = inr (v, db') /\
  NoDup (secondaryContactIds v) /\ ~ In (primaryContatctId v) (secondaryContactIds v).
Proof.
  eexists; eexists; split; [vm_compute; reflexivity|].
  destruct (identifyBody_response_rows (Some "a@x.edu"%string) (Some "222"%string)
              dbTwoGroups _ _ wf_dbTwoGroups ltac:(vm_compute; reflexivity)) as [_ [_ H]].
  exact H.
Defined.

(** ** The primary of a response *)

Lemma keepsRows_in n db db' c :
  keepsRows n db db' -> In c (contacts db) ->
  exists r, In r (contacts db') /\ rowData r = rowData c.
Proof.
  intros [[x [E _]] _] Hc. apply (in_map rowData) in Hc.
  assert (Hc' : In (rowData c) (map rowData (contacts db'))).
  { rewrite E. apply in_or_app. now left. }
  apply in_map_iff in Hc' as [r [Er Hr]]. eauto.
Qed.

(** The record a successful reconcile answers for carries the data of a
    row of the committed store; on a well-formed store it is itself that
    row, a non-deleted primary, and the only row with its id. *)
Lemma body_prim_row e p db v db' :
  identifyBody e p db = inr (v, db') ->
  exists prim, buildResponse prim db' = inr (v, db') /\
    (exists row, In row (contacts db') /\ rowData row = rowData prim) /\
    (wf db -> In prim (contacts db') /\ linkPrecedence prim = primary /\
              isLive prim = true /\
              forall r, In r (contacts db') -> id r = id prim -> r = prim).
Proof.
  intros H.
  assert (Huniq : forall prim, wf db -> In prim (contacts db') ->
            forall r, In r (contacts db') -> id r = id prim -> r = prim).
  { intros prim Hwf Hp r Hr Er.
    pose proof (wf_body e p db v db' Hwf H) as Hwf'.
    exact (nodup_ids_eq _ _ _ (ids_nodup _ (proj1 (proj1 Hwf'))) Hr Hp Er). }
  destruct (lookup_ok e p db) as [[|m ms] Hl].
  - rewrite (body_nomatch_eq _ _ _ Hl) in H.
    pose proof H as Hb. apply buildResponse_id in Hb as [_ Ed].
    set (n := mkContact (next_id db) e p primary None (clock db) None) in *.
    assert (Hn : In n (contacts db')) by (rewrite Ed; cbn [contacts]; apply in_or_app; right; now left).
    exists n. split; [rewrite Ed in H |- *; exact H|].
    split; [exists n; auto|].
    intros Hwf. split; [exact Hn|]. split; [reflexivity|]. split; [reflexivity|].
    exact (Huniq n Hwf Hn).
  - assert (Hne : m :: ms <> []) by discriminate.
    pose proof H as H0.
    destruct (body_matched _ _ _ _ _ _ Hl Hne H) as [o [dbm [dba [Hr [Ha Hb]]]]].
    pose proof (proj2 (buildResponse_id _ _ _ _ Hb)) as Ed. subst dba.
    exists o. split; [exact Hb|]. split.
    + destruct (resolveAndMerge_inv _ _ _ _ Hr) as [pm [rest [Hrr [Hs _]]]].
      pose proof (resolveRoots_cases (m :: ms) [] db) as Hc. rewrite Hrr in Hc.
      destruct Hc as [_ [_ Hin]].
      assert (Ho : In o (contacts db)).
      { assert (Hop : In o (map snd pm)).
        { apply (Permutation_in _ (sort_perm _)). rewrite Hs. now left. }
        destruct (Hin o Hop) as [[]|Ho]; exact Ho. }
      destruct (keepsRows_in _ _ _ _ (resolveAndMerge_keeps _ _ _ _ Hr) Ho) as [r1 [Hr1 E1]].
      destruct (keepsRows_in _ _ _ _ (addIfNew_keeps _ _ _ _ _ _ Ha) Hr1) as [r2 [Hr2 E2]].
      exists r2. split; [exact Hr2 | congruence].
    + intros Hwf.
      assert (Hms : forall x, In x (m :: ms) -> In x (contacts db) /\ isLive x = true).
      { intros x Hx. destruct (lookup_spec _ _ _ _ _ Hl) as [_ [Hsd _]].
        destruct (Hsd x Hx) as [? [? _]]. auto. }
      destruct (merge_state _ _ _ _ Hwf Hms Hr)
        as [pm [targets (_ & _ & Hdbm & Hroots & Hndr & _)]].
      destruct (Hroots o (or_introl eq_refl)) as [Hoc [Hop Hol]].
      assert (Hsn : linkedId o = None) by (apply (proj2 (proj1 Hwf) o Hoc); exact Hop).
      assert (Hsm : memIds targets (id o) = false) by (apply nodup_memIds; exact Hndr).
      assert (Hin : In o (contacts db')).
      { apply (proj1 (addIfNew_keep _ _ _ _ _ _ Ha)). rewrite Hdbm. cbn [contacts].
        pose proof (in_map (mergeEffect targets (id o)) _ _ Hoc) as Hi.
        rewrite (mergeEffect_surv targets o Hsn Hsm) in Hi. exact Hi. }
      split; [exact Hin|]. split; [exact Hop|]. split; [exact Hol|].
      exact (Huniq o Hwf Hin).
Qed.

(** ** C6 *)

(** C6: every response is built from a record [prim] and the list [secs]
    of the non-deleted records linked to it, in ascending [createdAt]
    order: the primary id is [prim]'s, the secondary ids are [secs]'s, and
    the emails (phone numbers) are the present values of [prim] then
    [secs], each kept at its first occurrence; no empty entry and no
    repetition occurs in either list.  [prim] has the id, email, phone,
    creation time and deletion mark of a row of the committed store; on a
    well-formed store it is that row itself, a non-deleted primary, and no
    other row has its id. *)
Theorem C6_response_shape e p db v db' :
  identifyBody e p db = inr (v, db') ->
  exists prim secs,
    primaryContatctId v = id prim /\
    (exists row, In row (contacts db') /\ rowData row = rowData prim) /\
    (wf db -> In prim (contacts db') /\ linkPrecedence prim = primary /\
              isLive prim = true /\
              forall r, In r (contacts db') -> id r = id prim -> r = prim) /\
    Permutation secs (filter (linksTo (id prim)) (contacts db')) /\
    Sorted createdLe secs /\
    secondaryContactIds v = map id secs /\
    emails v = dropLaterDups (presentValues (map email (prim :: secs))) /\
    phoneNumbers v = dropLaterDups (presentValues (map phoneNumber (prim :: secs))) /\
    ~ In EmptyString (emails v) /\ ~ In EmptyString (phoneNumbers v) /\
    NoDup (emails v) /\ NoDup (phoneNumbers v).
Proof.
  intros H. destruct (body_prim_row _ _ _ _ _ H) as [prim [Hb [Hrow Hwf]]].
  rewrite buildResponse_eq in Hb.
  set (secs := sortByCreatedAt (filter (linksTo (id prim)) (contacts db'))) in Hb.
  assert (Hv : v = mkResponse (id prim) (uniqStr (truthyVals (map email (prim :: secs))))
                     (uniqStr (truthyVals (map phoneNumber (prim :: secs)))) (map id secs))
    by congruence.
  exists prim, secs. split; [rewrite Hv; reflexivity|]. split; [exact Hrow|].
  split; [exact Hwf|].
  rewrite Hv. cbn [primaryContatctId emails phoneNumbers secondaryContactIds].
  rewrite !uniqStr_dropLaterDups, !truthyVals_present.
  split; [apply sort_perm|]. split; [apply sort_sorted|].
  split; [reflexivity|]. split; [reflexivity|]. split; [reflexivity|].
  split; [intros Hi; apply dropLaterDups_in in Hi; exact (presentValues_nonempty _ Hi)|].
  split; [intros Hi; apply dropLaterDups_in in Hi; exact (presentValues_nonempty _ Hi)|].
  split; apply dropLaterDups_nodup.
Qed.

Lemma C6_witness :
  exists v db',
    identifyBody (Some "a@x.edu"%string) (Some "222"%string) dbTwoGroups = inr (v, db') /\
    exists prim secs,
      primaryContatctId v = id prim /\
      (exists row, In row (contacts db') /\ rowData row = rowData prim) /\
      (wf dbTwoGroups -> In prim (contacts db') /\ linkPrecedence prim = primary /\
                isLive prim = true /\
                forall r, In r (contacts db') -> id r = id prim -> r = prim) /\
      Permutation secs (filter (linksTo (id prim)) (contacts db')) /\
      Sorted createdLe secs /\
      secondaryContactIds v = map id secs /\
      emails v = dropLaterDups (presentValues (map email (prim :: secs))) /\
      phoneNumbers v = dropLaterDups (presentValues (map phoneNumber (prim :: secs))) /\
      ~ In EmptyString (emails v) /\ ~ In EmptyString (phoneNumbers v) /\
      NoDup (emails v) /\ NoDup (phoneNumbers v).
Proof.
  eexists; eexists; split; [compute; reflexivity|].
  apply (C6_response_shape (Some "a@x.edu"%string) (Some "222"%string) dbTwoGroups).
  vm_compute. reflexivity.
Defined.
